(** * fedimg: the Google Compute Engine image service

    A shallow embedding of [fedimg/services/gce.py], of the SSH probe of
    [fedimg/util.py] and of the exception classes of [fedimg/common.py],
    together with the properties of the image-qualification workflow.

    The program is Python 2 and talks to three outside parties: the
    libcloud storage and compute drivers, [requests], and a paramiko SSH
    client.  Every method becomes a function in a state-and-exception
    monad.  The state holds the two lists of the service object, the
    sequence of outside calls issued so far and the log records written so
    far.  The answers of the outside world are a record of functions
    ([World]); every theorem quantifies over it. *)

From Stdlib Require Import ZArith List String Ascii Bool Lia QArith.
From Stdlib Require Import DecimalString Permutation Sorted.
From Equations Require Import Equations.
Import ListNotations.

Local Open Scope list_scope.
Local Open Scope string_scope.
Local Open Scope Z_scope.

(** ** Python values and exceptions *)

(** The exception classes that occur in the three modules.  The classes of
    [fedimg.common] carry their message; [OtherError] stands for any class
    that no handler of the program names. *)
Inductive exn : Type :=
| ServiceError (msg : string)
| ImageURLError (msg : string)
| SSHConnectionError (msg : string)
| ResourceNotFoundError
| ContainerDoesNotExistError
| BadHostKeyException (msg : string)
| AuthenticationException (msg : string)
| SSHException (msg : string)
| socket_error (msg : string)
| IndexError
| OtherError (class_name : string).

(** [class ImageURLError(ServiceError)], [class SSHConnectionError(ServiceError)]. *)
Definition is_ServiceError (e : exn) : bool :=
  match e with
  | ServiceError _ | ImageURLError _ | SSHConnectionError _ => true
  | _ => false
  end.

(** [e.message] *)
Definition message (e : exn) : string :=
  match e with
  | ServiceError m | ImageURLError m | SSHConnectionError m
  | BadHostKeyException m | AuthenticationException m
  | SSHException m | socket_error m => m
  | _ => EmptyString
  end.

Inductive result (A : Type) : Type :=
| Ok (a : A)
| Raise (e : exn).
Arguments Ok {A} a.
Arguments Raise {A} e.

(** ** The objects handed around *)

Record Node := { node_name : string; public_ips : list string }.
Record GceImage := { gce_name : string }.
Record Location := { location_name : string }.
Record Size := { size_name : string; price : Q }.
Record Container := { container_name : string }.
(** A storage object, the [image] argument of [test], [share], [publish]. *)
Record StorageObject := { name : string }.
(** What [requests.get] returns, as far as [upload] looks at it. *)
Record Response := { ok : bool; status_code : Z }.

(** ** Outside calls *)

Inductive Call : Type :=
| destroy_node_call (node : Node) (destroy_boot_disk : bool)
| delete_call (gce_image : GceImage)
| get_container_call (container : string)
| create_container_call (container : string)
| requests_get_call (url : string) (stream : bool)
| upload_object_via_stream_call (chunk_size : Z) (container : Container)
                                (object_name : string)
| ex_create_image_call (gce_image_name url : string) (wait_for_completion : bool)
| list_locations_call
| list_sizes_call (location : Location)
| create_node_call (node : string) (size : Size) (image : GceImage)
                   (location : Location)
| wait_until_running_call (nodes : list Node) (wait_period timeout : Z)
| ex_set_permissions_call (container object_name entity role : string)
| ssh_connect_call (ip username key_filename : string)
| ssh_close_call
| sleep_call (interval : Z).

(** The answers of the outside world.  A call that the program issues at
    most once per run answers from its arguments.  The calls issued in a
    loop over a list ([destroy_node], [delete], [ex_set_permissions]) also
    see every call issued before them, so that the same resource may be
    answered differently the second time.  [ssh_connect] sees the number of
    the attempt, the value of the variable [attempt] of the probe.
    [sleep_unusual] is what [time.sleep] does with an interval outside the
    range that every platform accepts: it raises for a negative interval
    ([IOError] on Linux) and for one too large for the platform
    ([OverflowError]), or it returns after the sleep. *)
Record World := {
  destroy_node : list Call -> Node -> bool -> result bool;
  delete : list Call -> GceImage -> result bool;
  get_container : string -> result Container;
  create_container : string -> result Container;
  requests_get : string -> result Response;
  upload_object_via_stream : Container -> string -> result StorageObject;
  ex_create_image : string -> string -> result GceImage;
  list_locations : result (list Location);
  list_sizes : Location -> result (list Size);
  create_node : string -> Size -> GceImage -> Location -> result Node;
  wait_until_running : list Node -> result unit;
  ex_set_permissions : list Call -> string -> string -> string -> string
                       -> result unit;
  ssh_connect : Z -> string -> string -> string -> result unit;
  sleep_unusual : Z -> result unit
}.

(** ** Program state and the monad *)

Inductive Level := DEBUG | INFO | WARNING.

Record State := {
  gce_images : list GceImage;        (* self.gce_images *)
  nodes : list Node;                 (* self.nodes *)
  calls : list Call;                 (* outside calls, oldest first *)
  logged : list (Level * string)     (* log records, oldest first *)
}.

(** [GCEService.__init__]: both lists start empty. *)
Definition init : State :=
  {| gce_images := []; nodes := []; calls := []; logged := [] |}.

Definition M (A : Type) : Type := State -> result A * State.

Definition ret {A} (a : A) : M A := fun st => (Ok a, st).
Definition raise {A} (e : exn) : M A := fun st => (Raise e, st).
Definition bind {A B} (m : M A) (k : A -> M B) : M B :=
  fun st =>
    match m st with
    | (Ok a, st') => k a st'
    | (Raise e, st') => (Raise e, st')
    end.

Notation "x <- m ;; k" := (bind m (fun x => k))
  (at level 61, m at next level, right associativity).
Notation "m ;; k" := (bind m (fun _ => k))
  (at level 61, right associativity).
Notation "m >>= k" := (bind m k) (at level 58, left associativity).

(** The state after one more outside call, and after one more log record. *)
Definition issue (c : Call) (st : State) : State :=
  {| gce_images := gce_images st; nodes := nodes st;
     calls := (calls st ++ [c])%list; logged := logged st |}.

Definition record (lvl : Level) (msg : string) (st : State) : State :=
  {| gce_images := gce_images st; nodes := nodes st;
     calls := calls st; logged := (logged st ++ [(lvl, msg)])%list |}.

Definition gets {A} (field : State -> A) : M A := fun st => (Ok (field st), st).

(** An outside call whose answer does not depend on the history. *)
Definition call {A} (c : Call) (answer : result A) : M A :=
  fun st => (answer, issue c st).

(** An outside call answered in view of the calls issued before it. *)
Definition call_after {A} (c : Call) (answer : list Call -> result A) : M A :=
  fun st => (answer (calls st), issue c st).

Definition log (lvl : Level) (msg : string) : M unit :=
  fun st => (Ok tt, record lvl msg st).

(** [for x in xs: body(x)] over a list that the body does not change. *)
Fixpoint for_each {A} (xs : list A) (body : A -> M unit) : M unit :=
  match xs with
  | [] => ret tt
  | x :: xs' => body x ;; for_each xs' body
  end.

(** [xs[0]] *)
Definition index0 {A} (xs : list A) : M A :=
  match xs with
  | [] => raise IndexError
  | x :: _ => ret x
  end.

(** ** Python library functions used by the program *)

(** The one-character string made of a double quote. *)
Definition dquote : string := String (ascii_of_nat 34) EmptyString.

(** [s.split(sep)[0]] for a non-empty [sep]: what stands before the first
    occurrence of [sep], all of [s] when there is none. *)
Fixpoint split_0 (sep s : string) : string :=
  if String.prefix sep s then EmptyString
  else match s with
       | EmptyString => EmptyString
       | String c s' => String c (split_0 sep s')
       end.

Definition in_range (lo hi c : ascii) : bool :=
  (nat_of_ascii lo <=? nat_of_ascii c)%nat
  && (nat_of_ascii c <=? nat_of_ascii hi)%nat.

(** The character class [[^a-zA-Z\d]] on byte strings. *)
Definition non_alnum (c : ascii) : bool :=
  negb (in_range "a" "z" c || in_range "A" "Z" c || in_range "0" "9" c).

(** [re.sub('[cls]+', repl, s)]: the scan goes left to right; [in_match]
    says that the character before belongs to the match being consumed,
    which the greedy [+] extends as far as the class allows. *)
Fixpoint re_sub_plus (cls : ascii -> bool) (repl : string) (in_match : bool)
                     (s : string) : string :=
  match s with
  | EmptyString => EmptyString
  | String c s' =>
      if cls c then
        if in_match then re_sub_plus cls repl true s'
        else repl ++ re_sub_plus cls repl true s'
      else String c (re_sub_plus cls repl false s')
  end.

(** [os.path.basename(p)]: what follows the last slash. *)
Fixpoint after_last_slash (acc p : string) : string :=
  match p with
  | EmptyString => acc
  | String c p' =>
      if Ascii.eqb c "/" then after_last_slash EmptyString p'
      else after_last_slash (acc ++ String c EmptyString) p'
  end.

Definition basename (p : string) : string := after_last_slash EmptyString p.

(** ['{0}'.format(n)] for an integer. *)
Definition format_int (n : Z) : string := NilZero.string_of_int (Z.to_int n).

(** [sizes.sort(key=lambda x: x.price)]: Python's sort is stable, and on
    keys that are totally ordered every stable sort returns the same list;
    this one inserts each element in front of the first element of the
    sorted rest whose price is not lower. *)
Fixpoint insert_by_price (x : Size) (l : list Size) : list Size :=
  match l with
  | [] => [x]
  | y :: l' =>
      if Qle_bool (price x) (price y) then x :: y :: l'
      else y :: insert_by_price x l'
  end.

Fixpoint sort_by_price (l : list Size) : list Size :=
  match l with
  | [] => []
  | x :: l' => insert_by_price x (sort_by_price l')
  end.

Section Program.

Variable w : World.

(** ** fedimg.util *)

(** The classes named by the [except] clause of the probe. *)
Definition retryable (e : exn) : bool :=
  match e with
  | BadHostKeyException _ | AuthenticationException _
  | SSHException _ | socket_error _ => true
  | _ => false
  end.

(** [time.sleep(interval)]: every platform sleeps and returns for an
    interval from 0 to 4294967 seconds (the Windows implementation takes at
    most [ULONG_MAX] milliseconds); what becomes of another interval is the
    answer of the world. *)
Definition time_sleep (interval : Z) : result unit :=
  if (0 <=? interval) && (interval <=? 4294967) then Ok tt
  else sleep_unusual w interval.

(** The state in which a failed attempt leaves the loop: the [except]
    clause logs, then either calls [time.sleep] (which returns, and another
    attempt follows, or raises) or returns, and the [finally] clause closes
    the client. *)
Definition failed_attempt (ip username keypath : string) (e : exn)
    (st : State) : State :=
  record DEBUG ("SSH connection failed with " ++ dquote
                ++ message e ++ dquote)
         (issue (ssh_connect_call ip username keypath) st).

(** The state once [time.sleep] was called after a failed attempt and the
    client closed, whether the sleep returned or raised. *)
Definition after_retry (ip username keypath : string) (interval : Z)
    (e : exn) (st : State) : State :=
  issue ssh_close_call
    (issue (sleep_call interval) (failed_attempt ip username keypath e st)).

(** The state once the last failed attempt was logged and the client
    closed. *)
Definition after_last (ip username keypath : string) (e : exn)
    (st : State) : State :=
  issue ssh_close_call (failed_attempt ip username keypath e st).

(** The [while True] loop of [ssh_connection_works], entered with the
    current value of [attempt].  The [finally] clause closes the client
    after the [return], after the [sleep] and before an exception leaves
    the function: one of [ssh.connect] of a class that the [except] clause
    does not name, or one of [time.sleep], which is raised inside the
    handler and is caught by nothing. *)
Equations? ssh_loop (username ip keypath : string)
    (attempts interval attempt : Z) (st : State)
    : result bool * State by wf (Z.to_nat (attempts - attempt)) lt :=
  ssh_loop username ip keypath attempts interval attempt st :=
    let st1 := issue (ssh_connect_call ip username keypath) st in
    match ssh_connect w (attempt + 1) ip username keypath with
    | Ok _ =>
        (Ok true,
         issue ssh_close_call
           (record INFO ("SSH connection successful to "
                         ++ username ++ "@" ++ ip) st1))
    | Raise e =>
        if retryable e then
          match Z_ge_dec (attempt + 1) attempts with
          | left _ => (Ok false, after_last ip username keypath e st)
          | right _ =>
              match time_sleep interval with
              | Ok _ =>
                  ssh_loop username ip keypath attempts interval
                    (attempt + 1)
                    (after_retry ip username keypath interval e st)
              | Raise e' =>
                  (Raise e', after_retry ip username keypath interval e st)
              end
          end
        else (Raise e, issue ssh_close_call st1)
    end.
Proof. lia. Qed.

Definition ssh_connection_works (username ip keypath : string)
    (attempts interval : Z) : M bool :=
  log INFO ("Testing SSH connectivity to " ++ username ++ "@" ++ ip) ;;
  ssh_loop username ip keypath attempts interval 0.

(** ** fedimg.services.gce *)

(** The settings of the [fedimg] package that the service reads. *)
Variable GCE_EMAIL : string.
Variable GCE_KEYPATH : string.
Variable GCE_STORAGE_CONTAINER : string.

Definition STORAGE_URL : string := "https://storage.googleapis.com".
Definition CHUNK_SIZE : Z := 4 * 1024 * 1024.

(** [try: if not <call>: log.warning(failed)]
    [except ResourceNotFoundError: log.debug(gone)] *)
Definition try_delete (c : M bool) (failed gone : string) : M unit :=
  fun st =>
    match c st with
    | (Ok true, st') => (Ok tt, st')
    | (Ok false, st') => log WARNING failed st'
    | (Raise ResourceNotFoundError, st') => log DEBUG gone st'
    | (Raise e, st') => (Raise e, st')
    end.

Definition cleanup : M unit :=
  ns <- gets nodes ;;
  for_each ns (fun node =>
    log INFO ("Deleting test instance: " ++ node_name node) ;;
    try_delete
      (call_after (destroy_node_call node true)
                  (fun h => destroy_node w h node true))
      "Failed to delete test instance"
      "No test instance to delete") ;;
  imgs <- gets gce_images ;;
  for_each imgs (fun gce_image =>
    log INFO ("Deleting test image: " ++ gce_name gce_image) ;;
    try_delete
      (call_after (delete_call gce_image)
                  (fun h => delete w h gce_image))
      "Failed to delete test image"
      "No test image to delete").

(** [try: container = get_container(n)]
    [except ContainerDoesNotExistError: container = create_container(n)] *)
Definition get_or_create_container (container_name : string) : M Container :=
  fun st =>
    match call (get_container_call container_name)
               (get_container w container_name) st with
    | (Raise ContainerDoesNotExistError, st') =>
        (log INFO ("Creating container: " ++ container_name) ;;
         call (create_container_call container_name)
              (create_container w container_name)) st'
    | r => r
    end.

(** [upload(self, image_url, compose_meta=None)]; [compose_meta] is not
    read. *)
Definition upload (image_url : string) : M StorageObject :=
  let object_name := basename image_url in
  let container_name := GCE_STORAGE_CONTAINER in
  log INFO ("Uploading " ++ image_url ++ " to container " ++ container_name) ;;
  container <- get_or_create_container container_name ;;
  resp <- call (requests_get_call image_url true) (requests_get w image_url) ;;
  if negb (ok resp) then
    raise (ImageURLError ("GET request to image failed (" ++ image_url
                          ++ "). The server response code was "
                          ++ format_int (status_code resp)))
  else
    call (upload_object_via_stream_call CHUNK_SIZE container object_name)
         (upload_object_via_stream w container object_name).

Definition append_gce_image (i : GceImage) : M unit :=
  fun st => (Ok tt, {| gce_images := (gce_images st ++ [i])%list; nodes := nodes st;
                       calls := calls st; logged := logged st |}).

Definition append_node (n : Node) : M unit :=
  fun st => (Ok tt, {| gce_images := gce_images st; nodes := (nodes st ++ [n])%list;
                       calls := calls st; logged := logged st |}).

Definition gce_image_name_of (object_name : string) : string :=
  re_sub_plus non_alnum "-" false (split_0 ".tar.gz" object_name).

Definition test (image : StorageObject) : M unit :=
  log INFO ("Testing image " ++ name image) ;;
  let gce_image_name := gce_image_name_of (name image) in
  let image_url :=
    STORAGE_URL ++ "/" ++ GCE_STORAGE_CONTAINER ++ "/" ++ name image in
  log INFO ("Creating GCE image " ++ dquote ++ gce_image_name ++ dquote
            ++ " from image object " ++ dquote ++ image_url ++ dquote
            ++ "...") ;;
  gce_image <- call (ex_create_image_call gce_image_name image_url true)
                    (ex_create_image w gce_image_name image_url) ;;
  append_gce_image gce_image ;;
  locations <- call list_locations_call (list_locations w) ;;
  location <- index0 locations ;;
  sizes <- call (list_sizes_call location) (list_sizes w location) ;;
  size <- index0 (sort_by_price sizes) ;;
  log INFO ("Launching test instance " ++ gce_name gce_image) ;;
  node <- call (create_node_call (gce_name gce_image) size gce_image location)
               (create_node w (gce_name gce_image) size gce_image location) ;;
  append_node node ;;
  log INFO ("Waiting until instance " ++ node_name node ++ " is running...") ;;
  call (wait_until_running_call [node] 10 600) (wait_until_running w [node]) ;;
  log INFO ("Instance " ++ node_name node ++ " is now running") ;;
  log INFO "Testing SSH connectivity to the instance..." ;;
  ip <- index0 (public_ips node) ;;
  works <- ssh_connection_works (split_0 "@" GCE_EMAIL) ip GCE_KEYPATH 60 60 ;;
  if negb works then
    raise (SSHConnectionError ("Cannot SSH to test instance " ++ node_name node
                               ++ ". Perhaps the image is improperly "
                               ++ "configured for GCE."))
  else log INFO ("Image " ++ name image ++ " passed a basic sanity test").

Definition share (image : StorageObject) (entities : list string) : M unit :=
  for_each entities (fun entity =>
    log INFO ("Sharing image " ++ name image ++ " with " ++ entity) ;;
    call_after (ex_set_permissions_call GCE_STORAGE_CONTAINER (name image)
                                        entity "READER")
               (fun h => ex_set_permissions w h GCE_STORAGE_CONTAINER
                                            (name image) entity "READER")).

Definition publish (image : StorageObject) : M unit :=
  log INFO ("Publishing image " ++ name image ++ " publicly") ;;
  call_after (ex_set_permissions_call GCE_STORAGE_CONTAINER (name image)
                                      "allUsers" "READER")
             (fun h => ex_set_permissions w h GCE_STORAGE_CONTAINER
                                          (name image) "allUsers" "READER").

End Program.

(** ** The rest of fedimg.util *)

(** [s.find(sub)]: the index of the first occurrence of [sub] in [s], -1
    when there is none. *)
Fixpoint find (sub s : string) : Z :=
  if String.prefix sub s then 0
  else match s with
       | EmptyString => -1
       | String _ s' =>
           let i := find sub s' in
           if i =? -1 then -1 else i + 1
       end.

(** [s.endswith(suffix)] *)
Fixpoint endswith (s suffix : string) : bool :=
  if String.eqb s suffix then true
  else match s with
       | EmptyString => false
       | String _ s' => endswith s' suffix
       end.

(** [s.lower()] on a byte string in the C locale: the letters [A-Z] go to
    [a-z], every other byte stays. *)
Definition lower_char (c : ascii) : ascii :=
  if in_range "A" "Z" c then ascii_of_nat (nat_of_ascii c + 32) else c.

Fixpoint lower (s : string) : string :=
  match s with
  | EmptyString => EmptyString
  | String c s' => String (lower_char c) (lower s')
  end.

(** [None] is [None], a name is [Some] of it. *)
Definition get_file_arch (file_name : string) : option string :=
  if negb (find "i386" file_name =? -1) then Some "i386"
  else if negb (find "x86_64" file_name =? -1) then Some "x86_64"
  else None.

(** [url.split('/')[-1]] is what follows the last slash of [url]. *)
Definition virt_types_from_url (url : string) : list string :=
  let file_name := lower (after_last_slash EmptyString url) in
  if negb (find "atomic" file_name =? -1) then ["hvm"]
  else ["hvm"; "paravirtual"].

(** The values that the metadata handed to [get_rawxz_urls] and [safeget]
    are made of; a dictionary is the list of its items, looked up from the
    front. *)
Inductive value : Type :=
| VNone
| VStr (s : string)
| VInt (n : Z)
| VDict (items : list (string * value)).

Inductive dict_error : Type :=
| KeyError (key : string)
| TypeError
| AttributeError.

Fixpoint lookup (key : string) (items : list (string * value)) : option value :=
  match items with
  | [] => None
  | (k, v) :: items' => if String.eqb k key then Some v else lookup key items'
  end.

(** [v[key]] for a string [key]: only a dictionary can be indexed so. *)
Definition getitem (v : value) (key : string) : value + dict_error :=
  match v with
  | VDict items =>
      match lookup key items with
      | Some x => inl x
      | None => inr (KeyError key)
      end
  | _ => inr TypeError
  end.

(** [for key in keys: try: dct = dct[key] except KeyError: return None] *)
Fixpoint safeget (dct : value) (keys : list string) : value + dict_error :=
  match keys with
  | [] => inl dct
  | key :: keys' =>
      match getitem dct key with
      | inl v => safeget v keys'
      | inr (KeyError _) => inl VNone
      | inr e => inr e
      end
  end.

(** [f['path']] as the string that [.endswith] needs. *)
Definition path_of (f : value) : string + dict_error :=
  match getitem f "path" with
  | inl (VStr p) => inl p
  | inl _ => inr AttributeError
  | inr e => inr e
  end.

(** [[f['path'] for f in images if f['path'].endswith('.raw.xz')]] *)
Fixpoint rawxz_list (images : list value) : list string + dict_error :=
  match images with
  | [] => inl []
  | f :: images' =>
      match path_of f with
      | inr e => inr e
      | inl p =>
          match rawxz_list images' with
          | inr e => inr e
          | inl ps => inl (if endswith p ".raw.xz" then p :: ps else ps)
          end
      end
  end.

Definition get_rawxz_urls (location : string) (images : list value)
    : list string + dict_error :=
  match rawxz_list images with
  | inr e => inr e
  | inl [] => inl []
  | inl ps => inl (map (fun path => location ++ "/" ++ path) ps)
  end.

(** ** fedimg.common: the service as a context manager *)

(** [BaseService.__exit__(self, type_, value, traceback)] calls
    [self.cleanup()] and returns [None]. *)
Definition __exit__ (w : World) : M unit := cleanup w.

(** [with svc: body]: [__enter__] returns the service; [__exit__] runs
    when the body returns and when it raises.  As [__exit__] returns
    [None], an exception of the body goes on after it; an exception of
    [__exit__] itself takes its place. *)
Definition with_service {A} (w : World) (body : M A) : M A :=
  fun st =>
    let (r, st1) := body st in
    match __exit__ w st1 with
    | (Ok _, st2) => (r, st2)
    | (Raise e, st2) => (Raise e, st2)
    end.

(** ** Sample worlds and states *)

(** A world in which every call succeeds: the container exists, the fetch
    answers 200, one location offers the five sizes of the test suite, the
    node gets one address and the first SSH attempt connects.  An unusual
    sleep is refused as Linux refuses it. *)
Definition sample_sizes : list Size :=
  [ {| size_name := "a"; price := 1.2 |};
    {| size_name := "b"; price := 0.1 |};
    {| size_name := "c"; price := 999 |};
    {| size_name := "d"; price := 0.01 |};
    {| size_name := "e"; price := 0.011 |} ]%Q.

Definition calm : World := {|
  destroy_node := fun _ _ _ => Ok true;
  delete := fun _ _ => Ok true;
  get_container := fun n => Ok {| container_name := n |};
  create_container := fun n => Ok {| container_name := n |};
  requests_get := fun _ => Ok {| ok := true; status_code := 200 |};
  upload_object_via_stream := fun _ n => Ok {| name := n |};
  ex_create_image := fun n _ => Ok {| gce_name := n |};
  list_locations := Ok [ {| location_name := "us-central1-a" |} ];
  list_sizes := fun _ => Ok sample_sizes;
  create_node := fun n _ _ _ =>
    Ok {| node_name := n; public_ips := ["203.0.113.7"] |};
  wait_until_running := fun _ => Ok tt;
  ex_set_permissions := fun _ _ _ _ _ => Ok tt;
  ssh_connect := fun _ _ _ _ => Ok tt;
  sleep_unusual := fun interval =>
    Raise (OtherError (if interval <? 0 then "IOError" else "OverflowError"))
|}.

Definition with_ssh_connect
    (f : Z -> string -> string -> string -> result unit) (w : World) : World :=
  {| destroy_node := destroy_node w; delete := delete w;
     get_container := get_container w; create_container := create_container w;
     requests_get := requests_get w;
     upload_object_via_stream := upload_object_via_stream w;
     ex_create_image := ex_create_image w; list_locations := list_locations w;
     list_sizes := list_sizes w; create_node := create_node w;
     wait_until_running := wait_until_running w;
     ex_set_permissions := ex_set_permissions w; ssh_connect := f;
     sleep_unusual := sleep_unusual w |}.


(** No attempt ever connects. *)
Definition unreachable : World :=
  with_ssh_connect (fun _ _ _ _ => Raise (socket_error "timed out")) calm.

(** The first two attempts are refused, the third connects. *)
Definition slow_boot : World :=
  with_ssh_connect
    (fun attempt _ _ _ =>
       if attempt <=? 2 then Raise (socket_error "Connection refused")
       else Ok tt)
    calm.


(** The resources of [test_cleanup]. *)
Definition node_1 : Node := {| node_name := "node-1"; public_ips := [] |}.
Definition node_2 : Node := {| node_name := "node-2"; public_ips := [] |}.
Definition gce_image_1 : GceImage := {| gce_name := "gce-image-1" |}.
Definition gce_image_2 : GceImage := {| gce_name := "gce-image-2" |}.

Definition two_of_each : State :=
  {| gce_images := [gce_image_1; gce_image_2]; nodes := [node_1; node_2];
     calls := []; logged := [] |}.

(** The image of the test suite and what [calm] makes of it. *)
Definition sample_image : StorageObject := {| name := "fake-img-1.2-3.tar.gz" |}.
Definition sample_gce_image : GceImage := {| gce_name := "fake-img-1-2-3" |}.
Definition sample_location : Location := {| location_name := "us-central1-a" |}.
Definition sample_size : Size := {| size_name := "d"; price := 0.01 |}.
Definition sample_node : Node :=
  {| node_name := "fake-img-1-2-3"; public_ips := ["203.0.113.7"] |}.

(** The provider offers no location, no size, or gives the node no public
    address. *)
Definition no_locations : World :=
  {| destroy_node := destroy_node calm; delete := delete calm;
     get_container := get_container calm;
     create_container := create_container calm;
     requests_get := requests_get calm;
     upload_object_via_stream := upload_object_via_stream calm;
     ex_create_image := ex_create_image calm;
     list_locations := Ok [];
     list_sizes := list_sizes calm; create_node := create_node calm;
     wait_until_running := wait_until_running calm;
     ex_set_permissions := ex_set_permissions calm;
     ssh_connect := ssh_connect calm;
     sleep_unusual := sleep_unusual calm |}.

Definition no_sizes : World :=
  {| destroy_node := destroy_node calm; delete := delete calm;
     get_container := get_container calm;
     create_container := create_container calm;
     requests_get := requests_get calm;
     upload_object_via_stream := upload_object_via_stream calm;
     ex_create_image := ex_create_image calm;
     list_locations := list_locations calm;
     list_sizes := fun _ => Ok []; create_node := create_node calm;
     wait_until_running := wait_until_running calm;
     ex_set_permissions := ex_set_permissions calm;
     ssh_connect := ssh_connect calm;
     sleep_unusual := sleep_unusual calm |}.

Definition no_address : World :=
  {| destroy_node := destroy_node calm; delete := delete calm;
     get_container := get_container calm;
     create_container := create_container calm;
     requests_get := requests_get calm;
     upload_object_via_stream := upload_object_via_stream calm;
     ex_create_image := ex_create_image calm;
     list_locations := list_locations calm;
     list_sizes := list_sizes calm;
     create_node := fun n _ _ _ => Ok {| node_name := n; public_ips := [] |};
     wait_until_running := wait_until_running calm;
     ex_set_permissions := ex_set_permissions calm;
     ssh_connect := ssh_connect calm;
     sleep_unusual := sleep_unusual calm |}.

(** The source answers with a failure status, here the -1 of the test
    suite; in the second world the container has to be created first. *)
Definition bad_status : World :=
  {| destroy_node := destroy_node calm; delete := delete calm;
     get_container := get_container calm;
     create_container := create_container calm;
     requests_get := fun _ => Ok {| ok := false; status_code := -1 |};
     upload_object_via_stream := upload_object_via_stream calm;
     ex_create_image := ex_create_image calm;
     list_locations := list_locations calm;
     list_sizes := list_sizes calm; create_node := create_node calm;
     wait_until_running := wait_until_running calm;
     ex_set_permissions := ex_set_permissions calm;
     ssh_connect := ssh_connect calm;
     sleep_unusual := sleep_unusual calm |}.

Definition bad_status_no_container : World :=
  {| destroy_node := destroy_node calm; delete := delete calm;
     get_container := fun _ => Raise ContainerDoesNotExistError;
     create_container := create_container calm;
     requests_get := fun _ => Ok {| ok := false; status_code := 404 |};
     upload_object_via_stream := upload_object_via_stream calm;
     ex_create_image := ex_create_image calm;
     list_locations := list_locations calm;
     list_sizes := list_sizes calm; create_node := create_node calm;
     wait_until_running := wait_until_running calm;
     ex_set_permissions := ex_set_permissions calm;
     ssh_connect := ssh_connect calm;
     sleep_unusual := sleep_unusual calm |}.

(** The second grant is refused. *)
Definition refuses_second_grant : World :=
  {| destroy_node := destroy_node calm; delete := delete calm;
     get_container := get_container calm;
     create_container := create_container calm;
     requests_get := requests_get calm;
     upload_object_via_stream := upload_object_via_stream calm;
     ex_create_image := ex_create_image calm;
     list_locations := list_locations calm;
     list_sizes := list_sizes calm; create_node := create_node calm;
     wait_until_running := wait_until_running calm;
     ex_set_permissions := fun h _ _ _ _ =>
       match h with
       | [] => Ok tt
       | _ => Raise (OtherError "GoogleBaseError")
       end;
     ssh_connect := ssh_connect calm;
     sleep_unusual := sleep_unusual calm |}.

(** The instance is reported as not deleted, the rest as already gone. *)
Definition half_gone : World :=
  {| destroy_node := fun _ node _ =>
       if String.eqb (node_name node) "node-1" then Ok false
       else Raise ResourceNotFoundError;
     delete := fun _ _ => Raise ResourceNotFoundError;
     get_container := get_container calm;
     create_container := create_container calm;
     requests_get := requests_get calm;
     upload_object_via_stream := upload_object_via_stream calm;
     ex_create_image := ex_create_image calm;
     list_locations := list_locations calm;
     list_sizes := list_sizes calm; create_node := create_node calm;
     wait_until_running := wait_until_running calm;
     ex_set_permissions := ex_set_permissions calm;
     ssh_connect := ssh_connect calm;
     sleep_unusual := sleep_unusual calm |}.

(** ** Vocabulary of the statements *)

(** The [attempt]-th connection attempt fails with one of the classes that
    the probe retries. *)
Definition attempt_fails (w : World) (ip username keypath : string)
    (attempt : Z) : bool :=
  match ssh_connect w attempt ip username keypath with
  | Ok _ => false
  | Raise e => retryable e
  end.

(** The outside calls of an attempt that is followed by another one, and of
    an attempt after which the probe returns. *)
Definition retried_attempt (ip username keypath : string) (interval : Z)
    : list Call :=
  [ssh_connect_call ip username keypath; sleep_call interval; ssh_close_call].

Definition final_attempt (ip username keypath : string) : list Call :=
  [ssh_connect_call ip username keypath; ssh_close_call].

Definition retried_attempts (n : nat) (ip username keypath : string)
    (interval : Z) : list Call :=
  List.concat (repeat (retried_attempt ip username keypath interval) n).

(** The number of connection attempts among a sequence of calls. *)
Definition is_connect (c : Call) : bool :=
  match c with ssh_connect_call _ _ _ => true | _ => false end.

Definition connect_count (cs : list Call) : nat :=
  List.length (filter is_connect cs).

(** The number of attempts the probe makes when all of them fail: the loop
    body runs before [attempt >= attempts] is looked at. *)
Definition attempt_budget (attempts : Z) : Z := Z.max 1 attempts.

(** An answer to a destroy or delete request after which [cleanup] goes on:
    a returned value, or the provider's "not found". *)
Definition benign (r : result bool) : bool :=
  match r with
  | Ok _ | Raise ResourceNotFoundError => true
  | Raise _ => false
  end.

Definition destroy_calls (ns : list Node) : list Call :=
  map (fun node => destroy_node_call node true) ns.

Definition delete_calls (imgs : list GceImage) : list Call :=
  map delete_call imgs.

(** *** Points of a qualification run *)

Section Run.

Variable w : World.
Variables GCE_EMAIL GCE_KEYPATH GCE_STORAGE_CONTAINER : string.
Variable image : StorageObject.

(** The URL of the storage object that [test] hands to the provider. *)
Definition image_url_of : string :=
  STORAGE_URL ++ "/" ++ GCE_STORAGE_CONTAINER ++ "/" ++ name image.

(** The statements of [test] that follow [self.nodes.append(node)]. *)
Definition after_launch (node : Node) : M unit :=
  log INFO ("Waiting until instance " ++ node_name node ++ " is running...") ;;
  call (wait_until_running_call [node] 10 600) (wait_until_running w [node]) ;;
  log INFO ("Instance " ++ node_name node ++ " is now running") ;;
  log INFO "Testing SSH connectivity to the instance..." ;;
  ip <- index0 (public_ips node) ;;
  works <- ssh_connection_works w (split_0 "@" GCE_EMAIL) ip GCE_KEYPATH
                                60 60 ;;
  if negb works then
    raise (SSHConnectionError ("Cannot SSH to test instance " ++ node_name node
                               ++ ". Perhaps the image is improperly "
                               ++ "configured for GCE."))
  else log INFO ("Image " ++ name image ++ " passed a basic sanity test").

(** The statements of [test] that follow
    [self.gce_images.append(gce_image)]. *)
Definition after_registration (gce_image : GceImage) : M unit :=
  locations <- call list_locations_call (list_locations w) ;;
  location <- index0 locations ;;
  sizes <- call (list_sizes_call location) (list_sizes w location) ;;
  size <- index0 (sort_by_price sizes) ;;
  log INFO ("Launching test instance " ++ gce_name gce_image) ;;
  node <- call (create_node_call (gce_name gce_image) size gce_image location)
               (create_node w (gce_name gce_image) size gce_image location) ;;
  append_node node ;;
  after_launch node.

(** The provider registers the image under the derived name. *)
Definition registers (gce_image : GceImage) : Prop :=
  ex_create_image w (gce_image_name_of (name image)) image_url_of
  = Ok gce_image.

(** Registration succeeds, the provider offers [location] first and the
    sizes [sizes] there, and the launch with the size that [test] picks
    succeeds with [node]. *)
Definition launches (gce_image : GceImage) (location : Location)
    (sizes : list Size) (size : Size) (node : Node) : Prop :=
  registers gce_image
  /\ (exists others, list_locations w = Ok (location :: others))
  /\ list_sizes w location = Ok sizes
  /\ (exists others, sort_by_price sizes = size :: others)
  /\ create_node w (gce_name gce_image) size gce_image location = Ok node.

(** The run gets as far as the SSH probe, which is aimed at [ip]. *)
Definition reaches_probe (gce_image : GceImage) (location : Location)
    (sizes : list Size) (size : Size) (node : Node) (ip : string) : Prop :=
  launches gce_image location sizes size node
  /\ wait_until_running w [node] = Ok tt
  /\ (exists others, public_ips node = ip :: others).

(** The outside calls of a run up to the launch and up to the probe. *)
Definition calls_to_launch (gce_image : GceImage) (location : Location)
    (size : Size) : list Call :=
  [ex_create_image_call (gce_image_name_of (name image)) image_url_of true;
   list_locations_call;
   list_sizes_call location;
   create_node_call (gce_name gce_image) size gce_image location].

Definition calls_to_probe (gce_image : GceImage) (location : Location)
    (size : Size) (node : Node) : list Call :=
  (calls_to_launch gce_image location size
   ++ [wait_until_running_call [node] 10 600])%list.

(** The message of the [SSHConnectionError] that [test] raises. *)
Definition cannot_ssh (node : Node) : string :=
  "Cannot SSH to test instance " ++ node_name node
  ++ ". Perhaps the image is improperly configured for GCE.".

End Run.

(** *** The order of the sizes *)

Definition cheaper_or_equal (a b : Size) : Prop := (price a <= price b)%Q.

Definition priced (p : Q) (a : Size) : bool := Qeq_bool (price a) p.

(** *** The derived image name, in the words of the specification *)

(** [s] without [suffix] at its end, [s] itself when it does not end so. *)
Fixpoint strip_suffix (suffix s : string) : string :=
  if String.eqb s suffix then EmptyString
  else match s with
       | EmptyString => EmptyString
       | String c s' => String c (strip_suffix suffix s')
       end.

(** The maximal runs of [s]: consecutive blocks of characters that are all
    inside [cls] (flag [true]) or all outside it, no two neighbours with
    the same flag. *)
Fixpoint runs (cls : ascii -> bool) (s : string) : list (bool * string) :=
  match s with
  | EmptyString => []
  | String c s' =>
      match runs cls s' with
      | (b, r) :: rest =>
          if Bool.eqb b (cls c) then (b, String c r) :: rest
          else (cls c, String c EmptyString) :: (b, r) :: rest
      | [] => [(cls c, String c EmptyString)]
      end
  end.

(** Every character of [s] satisfies [p]. *)
Fixpoint all_chars (p : ascii -> bool) (s : string) : bool :=
  match s with
  | EmptyString => true
  | String c s' => p c && all_chars p s'
  end.

(** Neighbouring runs differ in their flag. *)
Fixpoint alternate (rs : list (bool * string)) : Prop :=
  match rs with
  | br :: ((br' :: _) as rest) => fst br <> fst br' /\ alternate rest
  | _ => True
  end.

(** Every run inside the class written as [repl], the others as they are. *)
Fixpoint render (repl : string) (rs : list (bool * string)) : string :=
  match rs with
  | [] => EmptyString
  | (b, r) :: rest => (if b then repl else r) ++ render repl rest
  end.

Definition replace_runs (cls : ascii -> bool) (repl s : string) : string :=
  render repl (runs cls s).

(** "stripping the [.tar.gz] archive suffix and then replacing every
    maximal run of characters outside [A-Za-z0-9] with a single hyphen" *)
Definition spec_image_name (object_name : string) : string :=
  replace_runs non_alnum "-" (strip_suffix ".tar.gz" object_name).

(** *** Staging and distribution *)

(** The container is there, or it is missing and can be created. *)
Definition resolves_container (w : World) (container_name : string)
    (container : Container) : Prop :=
  get_container w container_name = Ok container
  \/ (get_container w container_name = Raise ContainerDoesNotExistError
      /\ create_container w container_name = Ok container).

(** The message of the [ImageURLError] that [upload] raises. *)
Definition bad_response (image_url : string) (status : Z) : string :=
  "GET request to image failed (" ++ image_url
  ++ "). The server response code was " ++ format_int status.

(** The grant of the READER role on the object of [image] to [entity]. *)
Definition reader_grant (container_name : string) (image : StorageObject)
    (entity : string) : Call :=
  ex_set_permissions_call container_name (name image) entity "READER".

(** *** What a piece of the program leaves alone *)

(** [st'] has the images of [st] and the calls of [st] and possibly more. *)
Definition grows (st st' : State) : Prop :=
  gce_images st' = gce_images st
  /\ exists cs, calls st' = (calls st ++ cs)%list.

(** Moreover the nodes are those of [st]. *)
Definition quiet (st st' : State) : Prop :=
  grows st st' /\ nodes st' = nodes st.

Definition preserves {A} (R : State -> State -> Prop) (m : M A) : Prop :=
  forall st, R st (snd (m st)).

(** *** Vocabulary of the further statements *)

(** [sub] occurs in [s]. *)
Definition occurs (sub s : string) : Prop :=
  exists before after, s = before ++ sub ++ after.

(** [d[k1][k2]...] without the [try] of [safeget]. *)
Fixpoint index_path (dct : value) (keys : list string) : value + dict_error :=
  match keys with
  | [] => inl dct
  | key :: keys' =>
      match getitem dct key with
      | inl v => index_path v keys'
      | inr e => inr e
      end
  end.

Definition is_dict (v : value) : bool :=
  match v with VDict _ => true | _ => false end.

(** The numbers of client closings and of sleeps among outside calls. *)
Definition is_close (c : Call) : bool :=
  match c with ssh_close_call => true | _ => false end.

Definition is_sleep (c : Call) : bool :=
  match c with sleep_call _ => true | _ => false end.

Definition close_count (cs : list Call) : nat :=
  List.length (filter is_close cs).

Definition sleep_count (cs : list Call) : nat :=
  List.length (filter is_sleep cs).

(** Everything [cleanup] may ask of the provider in the state [st]. *)
Definition reaping_calls (st : State) : list Call :=
  (destroy_calls (nodes st) ++ delete_calls (gce_images st))%list.

(** Every destroy and delete request is answered in a way that lets
    [cleanup] go on. *)
Definition benign_world (w : World) : Prop :=
  (forall h node, benign (destroy_node w h node true) = true)
  /\ (forall h gce_image, benign (delete w h gce_image) = true).

(** Metadata of two images, and one entry without a path. *)
Definition sample_images : list value :=
  [VDict [("path", VStr "compose/Fedora-Cloud-Base-22.x86_64.raw.xz");
          ("size", VInt 100)];
   VDict [("path", VStr "compose/Fedora-Cloud-Base-22.x86_64.qcow2")]].

Definition pathless : value := VDict [("size", VInt 100)].

(** The third SSH attempt fails with an exception that the probe does not
    retry. *)
Definition broken_client : World :=
  with_ssh_connect
    (fun attempt _ _ _ =>
       if attempt <=? 2 then Raise (socket_error "Connection refused")
       else Raise (OtherError "IOError"))
    calm.

(** The provider refuses to register the image, to launch the node, or
    the node does not come up in time. *)
Definition no_registration : World :=
  {| destroy_node := destroy_node calm; delete := delete calm;
     get_container := get_container calm;
     create_container := create_container calm;
     requests_get := requests_get calm;
     upload_object_via_stream := upload_object_via_stream calm;
     ex_create_image := fun _ _ => Raise (OtherError "GoogleBaseError");
     list_locations := list_locations calm;
     list_sizes := list_sizes calm; create_node := create_node calm;
     wait_until_running := wait_until_running calm;
     ex_set_permissions := ex_set_permissions calm;
     ssh_connect := ssh_connect calm;
     sleep_unusual := sleep_unusual calm |}.

Definition no_launch : World :=
  {| destroy_node := destroy_node calm; delete := delete calm;
     get_container := get_container calm;
     create_container := create_container calm;
     requests_get := requests_get calm;
     upload_object_via_stream := upload_object_via_stream calm;
     ex_create_image := ex_create_image calm;
     list_locations := list_locations calm;
     list_sizes := list_sizes calm;
     create_node := fun _ _ _ _ => Raise (OtherError "QuotaExceededError");
     wait_until_running := wait_until_running calm;
     ex_set_permissions := ex_set_permissions calm;
     ssh_connect := ssh_connect calm;
     sleep_unusual := sleep_unusual calm |}.

Definition never_running : World :=
  {| destroy_node := destroy_node calm; delete := delete calm;
     get_container := get_container calm;
     create_container := create_container calm;
     requests_get := requests_get calm;
     upload_object_via_stream := upload_object_via_stream calm;
     ex_create_image := ex_create_image calm;
     list_locations := list_locations calm;
     list_sizes := list_sizes calm; create_node := create_node calm;
     wait_until_running := fun _ => Raise (OtherError "LibcloudError");
     ex_set_permissions := ex_set_permissions calm;
     ssh_connect := ssh_connect calm;
     sleep_unusual := sleep_unusual calm |}.

(** The container is missing and is created; the container cannot be
    looked up; the container is missing and cannot be created. *)
Definition no_container : World :=
  {| destroy_node := destroy_node calm; delete := delete calm;
     get_container := fun _ => Raise ContainerDoesNotExistError;
     create_container := create_container calm;
     requests_get := requests_get calm;
     upload_object_via_stream := upload_object_via_stream calm;
     ex_create_image := ex_create_image calm;
     list_locations := list_locations calm;
     list_sizes := list_sizes calm; create_node := create_node calm;
     wait_until_running := wait_until_running calm;
     ex_set_permissions := ex_set_permissions calm;
     ssh_connect := ssh_connect calm;
     sleep_unusual := sleep_unusual calm |}.

Definition storage_down : World :=
  {| destroy_node := destroy_node calm; delete := delete calm;
     get_container := fun _ => Raise (OtherError "LibcloudError");
     create_container := create_container calm;
     requests_get := requests_get calm;
     upload_object_via_stream := upload_object_via_stream calm;
     ex_create_image := ex_create_image calm;
     list_locations := list_locations calm;
     list_sizes := list_sizes calm; create_node := create_node calm;
     wait_until_running := wait_until_running calm;
     ex_set_permissions := ex_set_permissions calm;
     ssh_connect := ssh_connect calm;
     sleep_unusual := sleep_unusual calm |}.

Definition no_container_no_create : World :=
  {| destroy_node := destroy_node calm; delete := delete calm;
     get_container := fun _ => Raise ContainerDoesNotExistError;
     create_container := fun _ => Raise (OtherError "LibcloudError");
     requests_get := requests_get calm;
     upload_object_via_stream := upload_object_via_stream calm;
     ex_create_image := ex_create_image calm;
     list_locations := list_locations calm;
     list_sizes := list_sizes calm; create_node := create_node calm;
     wait_until_running := wait_until_running calm;
     ex_set_permissions := ex_set_permissions calm;
     ssh_connect := ssh_connect calm;
     sleep_unusual := sleep_unusual calm |}.

(** * Properties *)

(** ** What the pieces of the program leave alone *)

Section Preservation.

Variable R : State -> State -> Prop.
Hypothesis R_refl : forall st, R st st.
Hypothesis R_trans : forall st1 st2 st3, R st1 st2 -> R st2 st3 -> R st1 st3.

Lemma preserves_ret {A} (a : A) : preserves R (ret a).
Proof. intros st. apply R_refl. Qed.

Lemma preserves_raise {A} (e : exn) : preserves R (@raise A e).
Proof. intros st. apply R_refl. Qed.

Lemma preserves_index0 {A} (xs : list A) : preserves R (index0 xs).
Proof. destruct xs; [apply preserves_raise | apply preserves_ret]. Qed.

Lemma preserves_gets {A} (field : State -> A) : preserves R (gets field).
Proof. intros st. apply R_refl. Qed.

Lemma preserves_bind {A B} (m : M A) (k : A -> M B) :
  preserves R m -> (forall a, preserves R (k a)) -> preserves R (m >>= k).
Proof.
  intros Hm Hk st. unfold bind. specialize (Hm st).
  destruct (m st) as [[a | e] st1]; cbn in *.
  - eapply R_trans; [exact Hm | apply Hk].
  - exact Hm.
Qed.

Lemma preserves_for_each {A} (xs : list A) (body : A -> M unit) :
  (forall x, preserves R (body x)) -> preserves R (for_each xs body).
Proof.
  intros Hbody. induction xs as [| x xs IH]; cbn [for_each].
  - apply preserves_ret.
  - apply preserves_bind; [apply Hbody | intros _; exact IH].
Qed.

End Preservation.

Lemma grows_refl st : grows st st.
Proof. split; [reflexivity | exists []; rewrite app_nil_r; reflexivity]. Qed.

Lemma grows_trans st1 st2 st3 : grows st1 st2 -> grows st2 st3 -> grows st1 st3.
Proof.
  intros [Hi1 [cs1 Hc1]] [Hi2 [cs2 Hc2]]. split; [congruence |].
  exists (cs1 ++ cs2)%list. rewrite Hc2, Hc1, app_assoc. reflexivity.
Qed.

Lemma quiet_refl st : quiet st st.
Proof. split; [apply grows_refl | reflexivity]. Qed.

Lemma quiet_trans st1 st2 st3 : quiet st1 st2 -> quiet st2 st3 -> quiet st1 st3.
Proof.
  intros [Hg1 Hn1] [Hg2 Hn2]. split; [eapply grows_trans; eauto | congruence].
Qed.

Lemma quiet_issue c st : quiet st (issue c st).
Proof. repeat split. exists [c]. reflexivity. Qed.

Lemma quiet_record lvl msg st : quiet st (record lvl msg st).
Proof. repeat split. exists []. cbn. rewrite app_nil_r. reflexivity. Qed.

Lemma quiet_log lvl msg : preserves quiet (log lvl msg).
Proof. intros st. apply quiet_record. Qed.

Lemma quiet_call {A} c (answer : result A) : preserves quiet (call c answer).
Proof. intros st. apply quiet_issue. Qed.

Lemma quiet_call_after {A} c (answer : list Call -> result A) :
  preserves quiet (call_after c answer).
Proof. intros st. apply quiet_issue. Qed.

Lemma grows_of_quiet {A} (m : M A) : preserves quiet m -> preserves grows m.
Proof. intros H st. apply H. Qed.

Lemma grows_append_node node : preserves grows (append_node node).
Proof. intros st. split; [reflexivity | exists []; cbn; now rewrite app_nil_r]. Qed.

Create HintDb keeps.

#[local] Hint Resolve quiet_refl quiet_trans grows_refl grows_trans
  quiet_log quiet_call quiet_call_after : keeps.

(** ** The SSH probe *)

Lemma connect_count_app (cs cs' : list Call) :
  connect_count (cs ++ cs') = (connect_count cs + connect_count cs')%nat.
Proof.
  unfold connect_count. rewrite filter_app, length_app. reflexivity.
Qed.

Lemma connect_count_attempts (n : nat) (ip username keypath : string)
    (interval : Z) :
  connect_count (retried_attempts n ip username keypath interval
                 ++ final_attempt ip username keypath) = S n.
Proof.
  rewrite connect_count_app. unfold retried_attempts.
  induction n as [| n IH]; [reflexivity |].
  cbn [repeat List.concat]. rewrite connect_count_app in *.
  cbn in *. lia.
Qed.

Section Probe.

Variable w : World.
Variables username ip keypath : string.
Variables attempts interval : Z.

Local Abbreviation loop := (ssh_loop w username ip keypath attempts interval).

(** Every platform accepts an interval of up to 4294967 seconds. *)
Lemma time_sleep_usual :
  0 <= interval <= 4294967 -> time_sleep w interval = Ok tt.
Proof.
  intros [Hlo Hhi]. unfold time_sleep.
  apply Z.leb_le in Hlo, Hhi. rewrite Hlo, Hhi. reflexivity.
Qed.

Lemma ssh_loop_ok attempt st u :
  ssh_connect w (attempt + 1) ip username keypath = Ok u ->
  loop attempt st =
  (Ok true,
   issue ssh_close_call
     (record INFO ("SSH connection successful to " ++ username ++ "@" ++ ip)
        (issue (ssh_connect_call ip username keypath) st))).
Proof.
  intros H. rewrite ssh_loop_equation_1. cbv zeta.
  rewrite H. reflexivity.
Qed.

Lemma ssh_loop_retry attempt st e :
  ssh_connect w (attempt + 1) ip username keypath = Raise e ->
  retryable e = true ->
  attempt + 1 < attempts ->
  time_sleep w interval = Ok tt ->
  loop attempt st =
  loop (attempt + 1) (after_retry ip username keypath interval e st).
Proof.
  intros H Hr Hlt Hsleep. rewrite ssh_loop_equation_1 at 1. cbv zeta.
  rewrite H, Hr, Hsleep.
  destruct (Z_ge_dec (attempt + 1) attempts); [lia | reflexivity].
Qed.

Lemma ssh_loop_sleep_raises attempt st e e' :
  ssh_connect w (attempt + 1) ip username keypath = Raise e ->
  retryable e = true ->
  attempt + 1 < attempts ->
  time_sleep w interval = Raise e' ->
  loop attempt st =
  (Raise e', after_retry ip username keypath interval e st).
Proof.
  intros H Hr Hlt Hsleep. rewrite ssh_loop_equation_1 at 1. cbv zeta.
  rewrite H, Hr, Hsleep.
  destruct (Z_ge_dec (attempt + 1) attempts); [lia | reflexivity].
Qed.

Lemma ssh_loop_last attempt st e :
  ssh_connect w (attempt + 1) ip username keypath = Raise e ->
  retryable e = true ->
  attempt + 1 >= attempts ->
  loop attempt st = (Ok false, after_last ip username keypath e st).
Proof.
  intros H Hr Hge. rewrite ssh_loop_equation_1 at 1. cbv zeta.
  rewrite H, Hr.
  destruct (Z_ge_dec (attempt + 1) attempts); [reflexivity | lia].
Qed.

Lemma ssh_loop_other attempt st e :
  ssh_connect w (attempt + 1) ip username keypath = Raise e ->
  retryable e = false ->
  loop attempt st =
  (Raise e,
   issue ssh_close_call (issue (ssh_connect_call ip username keypath) st)).
Proof.
  intros H Hr. rewrite ssh_loop_equation_1 at 1. cbv zeta.
  rewrite H, Hr. reflexivity.
Qed.

Lemma attempt_fails_inv attempt :
  attempt_fails w ip username keypath attempt = true ->
  exists e, ssh_connect w attempt ip username keypath = Raise e
            /\ retryable e = true.
Proof.
  unfold attempt_fails.
  destruct (ssh_connect w attempt ip username keypath) as [u | e];
    [discriminate | eauto].
Qed.

Lemma retried_attempts_S n :
  retried_attempts (S n) ip username keypath interval =
  (retried_attempt ip username keypath interval
   ++ retried_attempts n ip username keypath interval)%list.
Proof. reflexivity. Qed.

Lemma retried_attempts_snoc n :
  retried_attempts (S n) ip username keypath interval =
  (retried_attempts n ip username keypath interval
   ++ retried_attempt ip username keypath interval)%list.
Proof.
  unfold retried_attempts.
  replace (S n) with (n + 1)%nat by lia.
  rewrite repeat_app, List.concat_app. reflexivity.
Qed.

(** [k] failed attempts that are each followed by a sleep that returns
    and by another attempt. *)
Lemma ssh_loop_after_failures (k : nat) : forall attempt st,
  Z.of_nat k < attempt_budget (attempts - attempt) ->
  (forall j, attempt < j <= attempt + Z.of_nat k ->
             attempt_fails w ip username keypath j = true) ->
  time_sleep w interval = Ok tt ->
  exists st',
    loop attempt st = loop (attempt + Z.of_nat k) st'
    /\ calls st' = (calls st
                    ++ retried_attempts k ip username keypath interval)%list
    /\ gce_images st' = gce_images st
    /\ nodes st' = nodes st.
Proof.
  induction k as [| k IH]; intros attempt st Hk Hfail Hsleep.
  - exists st. rewrite Z.add_0_r. unfold retried_attempts. simpl.
    rewrite app_nil_r. auto.
  - unfold attempt_budget in *.
    destruct (attempt_fails_inv (attempt + 1)) as (e & He & Hr).
    { apply Hfail. lia. }
    rewrite (ssh_loop_retry attempt st e He Hr) by (lia || exact Hsleep).
    destruct (IH (attempt + 1)
                 (after_retry ip username keypath interval e st))
      as (st' & Hloop & Hcalls & Himgs & Hnodes).
    { lia. }
    { intros j Hj. apply Hfail. lia. }
    { exact Hsleep. }
    exists st'. repeat split.
    + rewrite Hloop. f_equal. lia.
    + rewrite Hcalls, retried_attempts_S. cbn.
      rewrite <- !app_assoc. reflexivity.
    + rewrite Himgs. reflexivity.
    + rewrite Hnodes. reflexivity.
Qed.

(** The five ways one turn of the loop can go. *)
Ltac loop_turn attempt st :=
  let u := fresh "u" in
  let e := fresh "e" in
  let e' := fresh "e'" in
  let Hc := fresh "Hconnect" in
  let Hr := fresh "Hretryable" in
  let Hlt := fresh "Hbudget" in
  let Hs := fresh "Hsleep" in
  destruct (ssh_connect w (attempt + 1) ip username keypath) as [u | e] eqn:Hc;
  [ rewrite (ssh_loop_ok attempt st u Hc)
  | destruct (retryable e) eqn:Hr;
    [ destruct (Z_lt_ge_dec (attempt + 1) attempts) as [Hlt | Hlt];
      [ destruct (time_sleep w interval) as [[] | e'] eqn:Hs;
        [ rewrite (ssh_loop_retry attempt st e Hc Hr Hlt Hs)
        | rewrite (ssh_loop_sleep_raises attempt st e e' Hc Hr Hlt Hs) ]
      | rewrite (ssh_loop_last attempt st e Hc Hr Hlt) ]
    | rewrite (ssh_loop_other attempt st e Hc Hr) ] ].

(** The probe touches neither list of the service object and only adds
    to the sequence of outside calls. *)
Lemma ssh_loop_quiet (m : nat) : forall attempt st,
  (Z.to_nat (attempts - attempt) <= m)%nat ->
  quiet st (snd (loop attempt st)).
Proof.
  induction m as [| m IH]; intros attempt st Hm;
    loop_turn attempt st; cbn [snd]; try lia;
    try (eapply quiet_trans; [| apply IH; lia]);
    unfold after_last, after_retry, failed_attempt;
    repeat first
      [ apply quiet_refl
      | eapply quiet_trans; [| apply quiet_issue]
      | eapply quiet_trans; [| apply quiet_record] ].
Qed.

Lemma ssh_loop_succeeds_at (k : nat) attempt st u :
  Z.of_nat k < attempt_budget (attempts - attempt) ->
  (forall j, attempt < j <= attempt + Z.of_nat k ->
             attempt_fails w ip username keypath j = true) ->
  ssh_connect w (attempt + Z.of_nat k + 1) ip username keypath = Ok u ->
  time_sleep w interval = Ok tt ->
  fst (loop attempt st) = Ok true
  /\ calls (snd (loop attempt st)) =
     (calls st ++ retried_attempts k ip username keypath interval
               ++ final_attempt ip username keypath)%list.
Proof.
  intros Hk Hfail Hok Hsleep.
  destruct (ssh_loop_after_failures k attempt st Hk Hfail Hsleep)
    as (st' & Hloop & Hcalls & _ & _).
  rewrite Hloop, (ssh_loop_ok _ st' u Hok). cbn. split; [reflexivity |].
  rewrite Hcalls, <- !app_assoc. reflexivity.
Qed.

Lemma ssh_loop_exhausted attempt st :
  (forall j, attempt < j <= attempt + attempt_budget (attempts - attempt) ->
             attempt_fails w ip username keypath j = true) ->
  time_sleep w interval = Ok tt ->
  fst (loop attempt st) = Ok false
  /\ calls (snd (loop attempt st)) =
     (calls st
      ++ retried_attempts
           (Z.to_nat (attempt_budget (attempts - attempt)) - 1)
           ip username keypath interval
      ++ final_attempt ip username keypath)%list.
Proof.
  intros Hfail Hsleep. unfold attempt_budget in *.
  set (k := (Z.to_nat (Z.max 1 (attempts - attempt)) - 1)%nat).
  destruct (ssh_loop_after_failures k attempt st)
    as (st' & Hloop & Hcalls & _ & _).
  { unfold attempt_budget. lia. }
  { intros j Hj. apply Hfail. lia. }
  { exact Hsleep. }
  destruct (attempt_fails_inv (attempt + Z.of_nat k + 1)) as (e & He & Hr).
  { apply Hfail. lia. }
  rewrite Hloop, (ssh_loop_last _ st' e He Hr) by lia.
  cbn. split; [reflexivity |].
  rewrite Hcalls, <- !app_assoc. reflexivity.
Qed.

(** Whenever the loop answers [False], the whole budget was spent. *)
Lemma ssh_loop_false_inv (m : nat) : forall attempt st,
  (Z.to_nat (attempts - attempt) <= m)%nat ->
  fst (loop attempt st) = Ok false ->
  forall j, attempt < j <= attempt + attempt_budget (attempts - attempt) ->
            attempt_fails w ip username keypath j = true.
Proof.
  unfold attempt_budget.
  induction m as [| m IH]; intros attempt st Hm Hfalse j Hj;
    revert Hfalse; loop_turn attempt st; cbn; intros Hfalse;
    try discriminate; try lia.
  - replace j with (attempt + 1) by lia.
    unfold attempt_fails. rewrite Hconnect. assumption.
  - destruct (Z.eq_dec j (attempt + 1)) as [-> | Hne].
    + unfold attempt_fails. rewrite Hconnect. assumption.
    + apply (IH (attempt + 1)
                (after_retry ip username keypath interval e st));
        [lia | assumption | lia].
  - replace j with (attempt + 1) by lia.
    unfold attempt_fails. rewrite Hconnect. assumption.
Qed.

Lemma ssh_connection_works_unfold st :
  ssh_connection_works w username ip keypath attempts interval st =
  loop 0 (record INFO ("Testing SSH connectivity to "
                       ++ username ++ "@" ++ ip) st).
Proof. reflexivity. Qed.

Lemma ssh_connection_works_quiet :
  preserves quiet
    (ssh_connection_works w username ip keypath attempts interval).
Proof.
  intros st. rewrite ssh_connection_works_unfold.
  eapply quiet_trans; [apply quiet_record |].
  apply (ssh_loop_quiet (Z.to_nat (attempts - 0))). lia.
Qed.

Lemma ssh_connection_works_true (k : nat) st u :
  Z.of_nat k < attempt_budget attempts ->
  (forall j, 1 <= j <= Z.of_nat k ->
             attempt_fails w ip username keypath j = true) ->
  ssh_connect w (Z.of_nat k + 1) ip username keypath = Ok u ->
  time_sleep w interval = Ok tt ->
  fst (ssh_connection_works w username ip keypath attempts interval st)
  = Ok true
  /\ calls (snd (ssh_connection_works w username ip keypath
                                      attempts interval st)) =
     (calls st ++ retried_attempts k ip username keypath interval
               ++ final_attempt ip username keypath)%list.
Proof.
  intros Hk Hfail Hok Hsleep. rewrite ssh_connection_works_unfold.
  destruct (ssh_loop_succeeds_at k 0
              (record INFO ("Testing SSH connectivity to "
                            ++ username ++ "@" ++ ip) st) u) as [Hr Hc].
  - rewrite Z.sub_0_r. exact Hk.
  - intros j Hj. apply Hfail. lia.
  - exact Hok.
  - exact Hsleep.
  - rewrite Hr, Hc. auto.
Qed.

Lemma ssh_connection_works_false st :
  (forall j, 1 <= j <= attempt_budget attempts ->
             attempt_fails w ip username keypath j = true) ->
  time_sleep w interval = Ok tt ->
  fst (ssh_connection_works w username ip keypath attempts interval st)
  = Ok false
  /\ calls (snd (ssh_connection_works w username ip keypath
                                      attempts interval st)) =
     (calls st
      ++ retried_attempts (Z.to_nat (attempt_budget attempts) - 1)
                          ip username keypath interval
      ++ final_attempt ip username keypath)%list.
Proof.
  intros Hfail Hsleep. rewrite ssh_connection_works_unfold.
  destruct (ssh_loop_exhausted 0
              (record INFO ("Testing SSH connectivity to "
                            ++ username ++ "@" ++ ip) st)) as [Hr Hc].
  - rewrite Z.sub_0_r. intros j Hj. apply Hfail. lia.
  - exact Hsleep.
  - rewrite Z.sub_0_r in Hc. rewrite Hr, Hc. auto.
Qed.

(** A sleep that raises ends the probe after the first attempt. *)
Lemma ssh_connection_works_sleep_raises st e' :
  attempt_fails w ip username keypath 1 = true ->
  1 < attempts ->
  time_sleep w interval = Raise e' ->
  exists st',
    ssh_connection_works w username ip keypath attempts interval st
    = (Raise e', st')
    /\ calls st'
       = (calls st ++ retried_attempt ip username keypath interval)%list.
Proof.
  intros Hfail Hbudget Hsleep. rewrite ssh_connection_works_unfold.
  destruct (attempt_fails_inv 1 Hfail) as (e & He & Hr).
  rewrite (ssh_loop_sleep_raises 0 _ e e' He Hr Hbudget Hsleep).
  eexists. split; [reflexivity |].
  cbn. rewrite <- !app_assoc. reflexivity.
Qed.

Lemma ssh_connection_works_false_inv st :
  fst (ssh_connection_works w username ip keypath attempts interval st)
  = Ok false ->
  forall j, 1 <= j <= attempt_budget attempts ->
            attempt_fails w ip username keypath j = true.
Proof.
  rewrite ssh_connection_works_unfold. intros Hfalse j Hj.
  apply (ssh_loop_false_inv (Z.to_nat (attempts - 0)) 0 _ (le_n _) Hfalse).
  rewrite Z.sub_0_r. lia.
Qed.

End Probe.

(** C4 (as amended).  Whatever the user name, address, key path and number
    of attempts, and for an interval that [time.sleep] accepts: when the
    attempts numbered 1 to [k] fail with a retried class, attempt [k + 1]
    connects and [k] is below the budget, the probe answers [True] and has
    issued exactly those [k + 1] attempts, a sleep of [interval] after each
    of the failed ones.  It answers [False] exactly when every attempt up
    to the budget fails, having then issued as many attempts as the budget
    says, a sleep of [interval] between two consecutive ones and none
    after the last.  The budget is [attempts], and 1 when [attempts] is
    below 1.  For an interval that [time.sleep] refuses with an exception
    (a negative one, for instance), a first attempt that fails with more
    attempts allowed is the only one: the probe leaves with the exception
    of [time.sleep], the client closed. *)
Theorem ssh_connection_works_attempts
    (w : World) (username ip keypath : string) (attempts interval : Z)
    (st : State) :
  (time_sleep w interval = Ok tt ->
   (forall (k : nat) (u : unit),
       Z.of_nat k < attempt_budget attempts ->
       (forall j, 1 <= j <= Z.of_nat k ->
                  attempt_fails w ip username keypath j = true) ->
       ssh_connect w (Z.of_nat k + 1) ip username keypath = Ok u ->
       fst (ssh_connection_works w username ip keypath attempts interval st)
       = Ok true
       /\ calls (snd (ssh_connection_works w username ip keypath
                                           attempts interval st)) =
          (calls st ++ retried_attempts k ip username keypath interval
                    ++ final_attempt ip username keypath)%list)
   /\ (fst (ssh_connection_works w username ip keypath attempts interval st)
       = Ok false
       <-> (forall j, 1 <= j <= attempt_budget attempts ->
                      attempt_fails w ip username keypath j = true))
   /\ (fst (ssh_connection_works w username ip keypath attempts interval st)
       = Ok false ->
       calls (snd (ssh_connection_works w username ip keypath
                                        attempts interval st)) =
       (calls st
        ++ retried_attempts (Z.to_nat (attempt_budget attempts) - 1)
                            ip username keypath interval
        ++ final_attempt ip username keypath)%list
       /\ connect_count
            (retried_attempts (Z.to_nat (attempt_budget attempts) - 1)
                              ip username keypath interval
             ++ final_attempt ip username keypath)
          = Z.to_nat (attempt_budget attempts)))
  /\ (forall e',
        time_sleep w interval = Raise e' ->
        attempt_fails w ip username keypath 1 = true ->
        1 < attempts ->
        fst (ssh_connection_works w username ip keypath attempts interval st)
        = Raise e'
        /\ calls (snd (ssh_connection_works w username ip keypath
                                            attempts interval st)) =
           (calls st ++ [ssh_connect_call ip username keypath;
                         sleep_call interval; ssh_close_call])%list).
Proof.
  split.
  - intros Hsleep. split; [| split].
    + intros k u Hk Hfail Hok.
      apply ssh_connection_works_true with (u := u); assumption.
    + split.
      * apply ssh_connection_works_false_inv.
      * intros Hfail. apply ssh_connection_works_false; assumption.
    + intros Hfalse. split.
      * apply ssh_connection_works_false; [| exact Hsleep].
        apply (ssh_connection_works_false_inv _ _ _ _ _ _ st Hfalse).
      * rewrite connect_count_attempts. unfold attempt_budget. lia.
  - intros e' Hsleep Hfail Hbudget.
    destruct (ssh_connection_works_sleep_raises
                w username ip keypath attempts interval st e'
                Hfail Hbudget Hsleep) as (st' & -> & Hc).
    split; [reflexivity | exact Hc].
Qed.

Lemma ssh_connection_works_attempts_witness :
  (fst (ssh_connection_works slow_boot "fedora" "203.0.113.7" "/etc/key" 5 10
                             init) = Ok true
   /\ calls (snd (ssh_connection_works slow_boot "fedora" "203.0.113.7"
                                       "/etc/key" 5 10 init)) =
      [ssh_connect_call "203.0.113.7" "fedora" "/etc/key"; sleep_call 10;
       ssh_close_call;
       ssh_connect_call "203.0.113.7" "fedora" "/etc/key"; sleep_call 10;
       ssh_close_call;
       ssh_connect_call "203.0.113.7" "fedora" "/etc/key"; ssh_close_call])
  /\ (fst (ssh_connection_works unreachable "fedora" "203.0.113.7" "/etc/key"
                                2 10 init) = Ok false
      /\ calls (snd (ssh_connection_works unreachable "fedora" "203.0.113.7"
                                          "/etc/key" 2 10 init)) =
         [ssh_connect_call "203.0.113.7" "fedora" "/etc/key"; sleep_call 10;
          ssh_close_call;
          ssh_connect_call "203.0.113.7" "fedora" "/etc/key"; ssh_close_call])
  /\ (fst (ssh_connection_works unreachable "fedora" "203.0.113.7" "/etc/key"
                                2 (-1) init) = Raise (OtherError "IOError")
      /\ calls (snd (ssh_connection_works unreachable "fedora" "203.0.113.7"
                                          "/etc/key" 2 (-1) init)) =
         [ssh_connect_call "203.0.113.7" "fedora" "/etc/key"; sleep_call (-1);
          ssh_close_call]).
Proof.
  split; [| split].
  - apply (proj1 (proj1 (ssh_connection_works_attempts
                           slow_boot "fedora" "203.0.113.7" "/etc/key" 5 10
                           init) eq_refl)
                 2%nat tt).
    + reflexivity.
    + intros j Hj. assert (j = 1 \/ j = 2) as [-> | ->] by lia; reflexivity.
    + reflexivity.
  - destruct (proj1 (ssh_connection_works_attempts
                       unreachable "fedora" "203.0.113.7" "/etc/key" 2 10
                       init) eq_refl)
      as (_ & Hiff & Hcalls).
    assert (Hfalse : fst (ssh_connection_works unreachable "fedora"
                            "203.0.113.7" "/etc/key" 2 10 init) = Ok false).
    { apply Hiff. intros j Hj. reflexivity. }
    split; [exact Hfalse | apply (Hcalls Hfalse)].
  - apply (proj2 (ssh_connection_works_attempts
                    unreachable "fedora" "203.0.113.7" "/etc/key" 2 (-1)
                    init)
                 (OtherError "IOError")).
    + reflexivity.
    + reflexivity.
    + lia.
Defined.

(** C4 as stated does not hold for a budget below 1: asked for 0 attempts,
    the probe still makes one before it answers [False].  Nor does it hold
    for an interval that [time.sleep] refuses: with the interval -1 and a
    host whose third attempt would connect, the probe makes one attempt
    and leaves with the [IOError] of [time.sleep] instead of answering
    [True]. *)
Lemma ssh_connection_works_zero_attempts :
  fst (ssh_connection_works unreachable "fedora" "203.0.113.7" "/etc/key"
                            0 10 init) = Ok false
  /\ connect_count
       (calls (snd (ssh_connection_works unreachable "fedora" "203.0.113.7"
                                         "/etc/key" 0 10 init))) = 1%nat
  /\ 1%nat <> Z.to_nat 0
  /\ ssh_connect slow_boot 3 "203.0.113.7" "fedora" "/etc/key" = Ok tt
  /\ fst (ssh_connection_works slow_boot "fedora" "203.0.113.7" "/etc/key"
                               5 (-1) init) = Raise (OtherError "IOError")
  /\ calls (snd (ssh_connection_works slow_boot "fedora" "203.0.113.7"
                                      "/etc/key" 5 (-1) init))
     = [ssh_connect_call "203.0.113.7" "fedora" "/etc/key"; sleep_call (-1);
        ssh_close_call].
Proof.
  split; [vm_compute; reflexivity |].
  split; [vm_compute; reflexivity |].
  split; [discriminate |].
  split; [reflexivity |].
  split; vm_compute; reflexivity.
Qed.

(** ** cleanup *)

Section Cleanup.

Variable w : World.

(** What one pass of either loop of [cleanup] does to the state. *)
Lemma try_delete_benign (c : Call) (answer : list Call -> result bool)
    (failed gone : string) (st : State) :
  benign (answer (calls st)) = true ->
  exists st',
    try_delete (call_after c answer) failed gone st = (Ok tt, st')
    /\ calls st' = (calls st ++ [c])%list
    /\ gce_images st' = gce_images st
    /\ nodes st' = nodes st.
Proof.
  unfold try_delete, call_after, benign. intros Hb.
  destruct (answer (calls st)) as [[|] | []]; try discriminate;
    eexists; (split; [reflexivity | cbn; auto]).
Qed.

Lemma for_each_delete {A} (mk_call : A -> Call)
    (answer : A -> list Call -> result bool)
    (title : A -> string) (failed gone : string) :
  (forall h x, benign (answer x h) = true) ->
  forall xs st,
  exists st',
    for_each xs (fun x =>
      log INFO (title x) ;;
      try_delete (call_after (mk_call x) (answer x)) failed gone) st
    = (Ok tt, st')
    /\ calls st' = (calls st ++ map mk_call xs)%list
    /\ gce_images st' = gce_images st
    /\ nodes st' = nodes st.
Proof.
  intros Hb xs. induction xs as [| x xs IH]; intros st.
  - exists st. cbn. rewrite app_nil_r. auto.
  - cbn [for_each]. unfold bind at 1. unfold bind at 1. unfold log at 1.
    destruct (try_delete_benign (mk_call x) (answer x) failed gone
                (record INFO (title x) st) (Hb _ x))
      as (st1 & -> & Hc1 & Hi1 & Hn1).
    destruct (IH st1) as (st2 & -> & Hc2 & Hi2 & Hn2).
    exists st2. split; [reflexivity |].
    rewrite Hc2, Hc1, Hi2, Hi1, Hn2, Hn1. cbn.
    rewrite <- app_assoc. auto.
Qed.

(** [cleanup] forgets nothing: it reads the two lists and never assigns
    them, whatever the provider answers. *)
Lemma try_delete_quiet (c : Call) (answer : list Call -> result bool)
    (failed gone : string) :
  preserves quiet (try_delete (call_after c answer) failed gone).
Proof.
  intros st. unfold try_delete, call_after.
  destruct (answer (calls st)) as [[|] | []]; cbn [snd log];
    eauto using quiet_trans, quiet_issue, quiet_record.
Qed.

Lemma cleanup_quiet : preserves quiet (cleanup w).
Proof.
  unfold cleanup.
  repeat first
    [ apply try_delete_quiet
    | apply quiet_log
    | apply (preserves_gets quiet quiet_refl)
    | apply (preserves_for_each quiet quiet_refl quiet_trans); intros ?
    | apply (preserves_bind quiet quiet_trans); [| intros ? ] ].
Qed.

Lemma cleanup_keeps_resources (st : State) :
  gce_images (snd (cleanup w st)) = gce_images st
  /\ nodes (snd (cleanup w st)) = nodes st.
Proof. destruct (cleanup_quiet st) as [[Hi _] Hn]. auto. Qed.

Lemma cleanup_benign (st : State) :
  (forall h node, benign (destroy_node w h node true) = true) ->
  (forall h gce_image, benign (delete w h gce_image) = true) ->
  exists st',
    cleanup w st = (Ok tt, st')
    /\ calls st' = (calls st ++ destroy_calls (nodes st)
                             ++ delete_calls (gce_images st))%list.
Proof.
  intros Hdestroy Hdelete. unfold cleanup.
  unfold bind at 1. unfold gets at 1. unfold bind at 1.
  destruct (for_each_delete
              (fun node => destroy_node_call node true)
              (fun node h => destroy_node w h node true)
              (fun node => "Deleting test instance: " ++ node_name node)
              "Failed to delete test instance" "No test instance to delete"
              (fun h x => Hdestroy h x) (nodes st) st)
    as (st1 & -> & Hc1 & Hi1 & Hn1).
  unfold bind at 1. unfold gets at 1.
  destruct (for_each_delete
              delete_call
              (fun gce_image h => delete w h gce_image)
              (fun gce_image => "Deleting test image: "
                                ++ gce_name gce_image)
              "Failed to delete test image" "No test image to delete"
              (fun h x => Hdelete h x) (gce_images st1) st1)
    as (st2 & -> & Hc2 & Hi2 & Hn2).
  exists st2. split; [reflexivity |].
  rewrite Hc2, Hc1, Hi1, <- app_assoc. reflexivity.
Qed.

End Cleanup.




(** C1, the code at the resources of [test_cleanup] in a world where every
    request succeeds: each instance and each image gets its one request,
    and both lists still hold what they held before. *)
Theorem cleanup_does_not_forget :
  fst (cleanup calm two_of_each) = Ok tt
  /\ calls (snd (cleanup calm two_of_each)) =
     [destroy_node_call node_1 true; destroy_node_call node_2 true;
      delete_call gce_image_1; delete_call gce_image_2]
  /\ nodes (snd (cleanup calm two_of_each)) = [node_1; node_2]
  /\ gce_images (snd (cleanup calm two_of_each)) = [gce_image_1; gce_image_2].
Proof. repeat split. Qed.

(** ** test *)

Section Qualification.

Variable w : World.
Variables GCE_EMAIL GCE_KEYPATH GCE_STORAGE_CONTAINER : string.
Variable image : StorageObject.

Local Abbreviation run :=
  (test w GCE_EMAIL GCE_KEYPATH GCE_STORAGE_CONTAINER image).
Local Abbreviation tail := (after_launch w GCE_EMAIL GCE_KEYPATH image).
Local Abbreviation middle :=
  (after_registration w GCE_EMAIL GCE_KEYPATH image).

(** A registered image is recorded before anything else happens. *)
Lemma test_registered (gce_image : GceImage) (st : State) :
  registers w GCE_STORAGE_CONTAINER image gce_image ->
  exists st1,
    run st = middle gce_image st1
    /\ gce_images st1 = (gce_images st ++ [gce_image])%list
    /\ nodes st1 = nodes st
    /\ calls st1 =
       (calls st
        ++ [ex_create_image_call (gce_image_name_of (name image))
              (image_url_of GCE_STORAGE_CONTAINER image) true])%list.
Proof.
  unfold registers. intros Hreg. eexists. split.
  - unfold test. unfold bind at 1. unfold log at 1.
    unfold bind at 1. unfold log at 1.
    unfold bind at 1. unfold call at 1.
    fold (image_url_of GCE_STORAGE_CONTAINER image). rewrite Hreg.
    unfold bind at 1. unfold append_gce_image at 1.
    reflexivity.
  - cbn. auto.
Qed.

Lemma middle_launched (gce_image : GceImage) (location : Location)
    (sizes : list Size) (size : Size) (node : Node) (st : State) :
  launches w GCE_STORAGE_CONTAINER image gce_image location sizes size node ->
  exists st2,
    middle gce_image st = tail node st2
    /\ gce_images st2 = gce_images st
    /\ nodes st2 = (nodes st ++ [node])%list
    /\ calls st2 =
       (calls st
        ++ [list_locations_call; list_sizes_call location;
            create_node_call (gce_name gce_image) size gce_image location])
       %list.
Proof.
  intros (_ & [locs Hloc] & Hsizes & [rest Hsort] & Hnode).
  eexists. split.
  - unfold after_registration.
    unfold bind at 1. unfold call at 1. rewrite Hloc.
    unfold bind at 1. unfold index0 at 1, ret at 1.
    unfold bind at 1. unfold call at 1. rewrite Hsizes.
    unfold bind at 1. rewrite Hsort. unfold index0 at 1, ret at 1.
    unfold bind at 1. unfold log at 1.
    unfold bind at 1. unfold call at 1. rewrite Hnode.
    unfold bind at 1. unfold append_node at 1.
    reflexivity.
  - cbn. rewrite <- !app_assoc. auto.
Qed.

Lemma tail_probes (node : Node) (ip : string) (st : State) :
  wait_until_running w [node] = Ok tt ->
  (exists others, public_ips node = ip :: others) ->
  exists st3,
    tail node st =
    (works <- ssh_connection_works w (split_0 "@" GCE_EMAIL) ip GCE_KEYPATH
                                   60 60 ;;
     if negb works then raise (SSHConnectionError (cannot_ssh node))
     else log INFO ("Image " ++ name image ++ " passed a basic sanity test"))
      st3
    /\ gce_images st3 = gce_images st
    /\ nodes st3 = nodes st
    /\ calls st3 = (calls st ++ [wait_until_running_call [node] 10 600])%list.
Proof.
  intros Hwait [others Hips]. eexists. split.
  - unfold after_launch.
    unfold bind at 1. unfold log at 1.
    unfold bind at 1. unfold call at 1. rewrite Hwait.
    unfold bind at 1. unfold log at 1.
    unfold bind at 1. unfold log at 1.
    unfold bind at 1. rewrite Hips. unfold index0 at 1, ret at 1.
    reflexivity.
  - cbn. auto.
Qed.

(** Nothing that follows the launch touches the two lists, and nothing
    that follows the registration touches the list of images. *)
Lemma tail_quiet (node : Node) : preserves quiet (tail node).
Proof.
  unfold after_launch.
  repeat first
    [ apply ssh_connection_works_quiet
    | apply (preserves_index0 quiet quiet_refl)
    | apply (preserves_raise quiet quiet_refl)
    | apply quiet_log
    | apply quiet_call
    | apply (preserves_bind quiet quiet_trans); [| intros ? ]
    | match goal with |- preserves _ (if ?b then _ else _) => destruct b end ].
Qed.

Lemma middle_grows (gce_image : GceImage) : preserves grows (middle gce_image).
Proof.
  unfold after_registration.
  repeat first
    [ apply grows_of_quiet, tail_quiet
    | apply grows_append_node
    | apply (preserves_index0 grows grows_refl)
    | apply grows_of_quiet, quiet_log
    | apply grows_of_quiet, quiet_call
    | apply (preserves_bind grows grows_trans); [| intros ? ] ].
Qed.

(** A run that launches its instance, seen from the end of the launch. *)
Lemma test_launched (gce_image : GceImage) (location : Location)
    (sizes : list Size) (size : Size) (node : Node) (st : State) :
  launches w GCE_STORAGE_CONTAINER image gce_image location sizes size node ->
  exists st2,
    run st = tail node st2
    /\ gce_images st2 = (gce_images st ++ [gce_image])%list
    /\ nodes st2 = (nodes st ++ [node])%list
    /\ calls st2 =
       (calls st ++ calls_to_launch GCE_STORAGE_CONTAINER image
                      gce_image location size)%list.
Proof.
  intros Hlaunch.
  destruct (test_registered gce_image st (proj1 Hlaunch))
    as (st1 & Hrun & Hi1 & Hn1 & Hc1).
  destruct (middle_launched gce_image location sizes size node st1 Hlaunch)
    as (st2 & Hmid & Hi2 & Hn2 & Hc2).
  exists st2. repeat split.
  - rewrite Hrun. exact Hmid.
  - rewrite Hi2. exact Hi1.
  - rewrite Hn2, Hn1. reflexivity.
  - rewrite Hc2, Hc1, <- app_assoc. reflexivity.
Qed.

(** A run that reaches the probe, seen from the call of the probe. *)
Lemma test_probes (gce_image : GceImage) (location : Location)
    (sizes : list Size) (size : Size) (node : Node) (ip : string)
    (st : State) :
  reaches_probe w GCE_STORAGE_CONTAINER image gce_image location sizes size
                node ip ->
  exists st3,
    run st =
    (works <- ssh_connection_works w (split_0 "@" GCE_EMAIL) ip GCE_KEYPATH
                                   60 60 ;;
     if negb works then raise (SSHConnectionError (cannot_ssh node))
     else log INFO ("Image " ++ name image ++ " passed a basic sanity test"))
      st3
    /\ calls st3 =
       (calls st ++ calls_to_probe GCE_STORAGE_CONTAINER image
                      gce_image location size node)%list.
Proof.
  intros (Hlaunch & Hwait & Hips).
  destruct (test_launched gce_image location sizes size node st Hlaunch)
    as (st2 & Hrun & _ & _ & Hc2).
  destruct (tail_probes node ip st2 Hwait Hips)
    as (st3 & Htail & _ & _ & Hc3).
  exists st3. split.
  - rewrite Hrun. exact Htail.
  - rewrite Hc3, Hc2. unfold calls_to_probe.
    rewrite <- !app_assoc. reflexivity.
Qed.

End Qualification.


(** C5.  In a run of [test] that reaches the probe: when each of the 60
    attempts fails with a retried class, [test] raises [SSHConnectionError]
    with a message that holds the name of the node, after exactly 60
    attempts; when the attempts numbered 1 to [k] fail, [k] is below 60 and
    attempt [k + 1] connects, [test] returns without an exception and no
    attempt follows that one. *)
Theorem test_probe_outcome
    (w : World) (GCE_EMAIL GCE_KEYPATH GCE_STORAGE_CONTAINER : string)
    (image : StorageObject) (st : State)
    (gce_image : GceImage) (location : Location) (sizes : list Size)
    (size : Size) (node : Node) (ip : string) :
  reaches_probe w GCE_STORAGE_CONTAINER image gce_image location sizes size
                node ip ->
  ((forall j, 1 <= j <= 60 ->
              attempt_fails w ip (split_0 "@" GCE_EMAIL) GCE_KEYPATH j = true) ->
   fst (test w GCE_EMAIL GCE_KEYPATH GCE_STORAGE_CONTAINER image st)
   = Raise (SSHConnectionError
              ("Cannot SSH to test instance " ++ node_name node
               ++ ". Perhaps the image is improperly configured for GCE."))
   /\ calls (snd (test w GCE_EMAIL GCE_KEYPATH GCE_STORAGE_CONTAINER image st))
      = (calls st
         ++ calls_to_probe GCE_STORAGE_CONTAINER image gce_image location
                           size node
         ++ retried_attempts 59 ip (split_0 "@" GCE_EMAIL) GCE_KEYPATH 60
         ++ final_attempt ip (split_0 "@" GCE_EMAIL) GCE_KEYPATH)%list)
  /\ (forall (k : nat) (u : unit),
        (k < 60)%nat ->
        (forall j, 1 <= j <= Z.of_nat k ->
                   attempt_fails w ip (split_0 "@" GCE_EMAIL) GCE_KEYPATH j
                   = true) ->
        ssh_connect w (Z.of_nat k + 1) ip (split_0 "@" GCE_EMAIL) GCE_KEYPATH
        = Ok u ->
        fst (test w GCE_EMAIL GCE_KEYPATH GCE_STORAGE_CONTAINER image st)
        = Ok tt
        /\ calls (snd (test w GCE_EMAIL GCE_KEYPATH GCE_STORAGE_CONTAINER
                            image st))
           = (calls st
              ++ calls_to_probe GCE_STORAGE_CONTAINER image gce_image location
                                size node
              ++ retried_attempts k ip (split_0 "@" GCE_EMAIL) GCE_KEYPATH 60
              ++ final_attempt ip (split_0 "@" GCE_EMAIL) GCE_KEYPATH)%list).
Proof.
  intros Hreach.
  destruct (test_probes w GCE_EMAIL GCE_KEYPATH GCE_STORAGE_CONTAINER image
              gce_image location sizes size node ip st Hreach)
    as (st3 & Hrun & Hc3).
  rewrite Hrun. unfold bind. split.
  - intros Hfail.
    destruct (ssh_connection_works_false w (split_0 "@" GCE_EMAIL) ip
                GCE_KEYPATH 60 60 st3 Hfail eq_refl) as [Hr Hc].
    destruct (ssh_connection_works w (split_0 "@" GCE_EMAIL) ip GCE_KEYPATH
                                   60 60 st3) as [r st'].
    cbn in Hr, Hc. subst r. cbn. split; [reflexivity |].
    rewrite Hc, Hc3, <- !app_assoc. reflexivity.
  - intros k u Hk Hfail Hok.
    destruct (ssh_connection_works_true w (split_0 "@" GCE_EMAIL) ip
                GCE_KEYPATH 60 60 k st3 u) as [Hr Hc];
      [unfold attempt_budget; lia | exact Hfail | exact Hok | reflexivity |].
    destruct (ssh_connection_works w (split_0 "@" GCE_EMAIL) ip GCE_KEYPATH
                                   60 60 st3) as [r st'].
    cbn in Hr, Hc. subst r. cbn. split; [reflexivity |].
    rewrite Hc, Hc3, <- !app_assoc. reflexivity.
Qed.


Lemma test_probe_outcome_witness :
  fst (test unreachable "fedimg@example.org" "/etc/key" "fedimg-bucket"
            sample_image init)
  = Raise (SSHConnectionError
             ("Cannot SSH to test instance fake-img-1-2-3"
              ++ ". Perhaps the image is improperly configured for GCE."))
  /\ fst (test slow_boot "fedimg@example.org" "/etc/key" "fedimg-bucket"
               sample_image init)
     = Ok tt.
Proof.
  split.
  - apply (proj1 (test_probe_outcome
                    unreachable "fedimg@example.org" "/etc/key"
                    "fedimg-bucket" sample_image init sample_gce_image
                    sample_location sample_sizes sample_size sample_node
                    "203.0.113.7"
                    (conj (conj eq_refl
                             (conj (ex_intro _ [] eq_refl)
                                (conj eq_refl
                                   (conj (ex_intro _ _ eq_refl) eq_refl))))
                       (conj eq_refl (ex_intro _ [] eq_refl))))).
    intros j Hj. reflexivity.
  - apply (proj2 (test_probe_outcome
                    slow_boot "fedimg@example.org" "/etc/key"
                    "fedimg-bucket" sample_image init sample_gce_image
                    sample_location sample_sizes sample_size sample_node
                    "203.0.113.7"
                    (conj (conj eq_refl
                             (conj (ex_intro _ [] eq_refl)
                                (conj eq_refl
                                   (conj (ex_intro _ _ eq_refl) eq_refl))))
                       (conj eq_refl (ex_intro _ [] eq_refl))))
                 2%nat tt).
    + lia.
    + intros j Hj. assert (j = 1 \/ j = 2) as [-> | ->] by lia; reflexivity.
    + reflexivity.
Defined.

(** C10.  [test] indexes three lists that the provider returns, without a
    guard: when the provider offers no location, or no size at the chosen
    location, or gives the node no public address, [test] raises
    [IndexError], which is not one of the [ServiceError] classes; in the
    last case no SSH attempt is made. *)
Theorem test_index_errors
    (w : World) (GCE_EMAIL GCE_KEYPATH GCE_STORAGE_CONTAINER : string)
    (image : StorageObject) (st : State) :
  (forall gce_image,
      registers w GCE_STORAGE_CONTAINER image gce_image ->
      list_locations w = Ok [] ->
      fst (test w GCE_EMAIL GCE_KEYPATH GCE_STORAGE_CONTAINER image st)
      = Raise IndexError)
  /\ (forall gce_image location others,
        registers w GCE_STORAGE_CONTAINER image gce_image ->
        list_locations w = Ok (location :: others) ->
        list_sizes w location = Ok [] ->
        fst (test w GCE_EMAIL GCE_KEYPATH GCE_STORAGE_CONTAINER image st)
        = Raise IndexError)
  /\ (forall gce_image location sizes size node,
        launches w GCE_STORAGE_CONTAINER image gce_image location sizes size
                 node ->
        wait_until_running w [node] = Ok tt ->
        public_ips node = [] ->
        fst (test w GCE_EMAIL GCE_KEYPATH GCE_STORAGE_CONTAINER image st)
        = Raise IndexError
        /\ calls (snd (test w GCE_EMAIL GCE_KEYPATH GCE_STORAGE_CONTAINER
                            image st))
           = (calls st ++ calls_to_probe GCE_STORAGE_CONTAINER image
                            gce_image location size node)%list)
  /\ is_ServiceError IndexError = false.
Proof.
  split; [| split; [| split; [| reflexivity]]].
  - intros gce_image Hreg Hloc.
    destruct (test_registered w GCE_EMAIL GCE_KEYPATH GCE_STORAGE_CONTAINER
                image gce_image st Hreg) as (st1 & -> & _).
    unfold after_registration. unfold bind at 1. unfold call at 1.
    rewrite Hloc. reflexivity.
  - intros gce_image location others Hreg Hloc Hsizes.
    destruct (test_registered w GCE_EMAIL GCE_KEYPATH GCE_STORAGE_CONTAINER
                image gce_image st Hreg) as (st1 & -> & _).
    unfold after_registration. unfold bind at 1. unfold call at 1.
    rewrite Hloc. unfold bind at 1. unfold index0 at 1, ret at 1.
    unfold bind at 1. unfold call at 1. rewrite Hsizes. reflexivity.
  - intros gce_image location sizes size node Hlaunch Hwait Hips.
    destruct (test_launched w GCE_EMAIL GCE_KEYPATH GCE_STORAGE_CONTAINER
                image gce_image location sizes size node st Hlaunch)
      as (st2 & -> & _ & _ & Hc2).
    unfold after_launch. unfold bind at 1. unfold log at 1.
    unfold bind at 1. unfold call at 1. rewrite Hwait.
    unfold bind at 1. unfold log at 1. unfold bind at 1. unfold log at 1.
    unfold bind at 1. rewrite Hips. cbn.
    split; [reflexivity |].
    rewrite Hc2. unfold calls_to_probe. rewrite <- app_assoc. reflexivity.
Qed.

Lemma test_index_errors_witness :
  fst (test no_locations "fedimg@example.org" "/etc/key" "fedimg-bucket"
            sample_image init) = Raise IndexError
  /\ fst (test no_sizes "fedimg@example.org" "/etc/key" "fedimg-bucket"
               sample_image init) = Raise IndexError
  /\ fst (test no_address "fedimg@example.org" "/etc/key" "fedimg-bucket"
               sample_image init) = Raise IndexError.
Proof.
  split; [| split].
  - apply (proj1 (test_index_errors no_locations "fedimg@example.org"
                    "/etc/key" "fedimg-bucket" sample_image init)
                 sample_gce_image); reflexivity.
  - apply (proj1 (proj2 (test_index_errors no_sizes "fedimg@example.org"
                           "/etc/key" "fedimg-bucket" sample_image init))
                 sample_gce_image sample_location []); reflexivity.
  - apply (proj1 (proj2 (proj2 (test_index_errors no_address
                                  "fedimg@example.org" "/etc/key"
                                  "fedimg-bucket" sample_image init)))
                 sample_gce_image sample_location sample_sizes sample_size
                 {| node_name := "fake-img-1-2-3"; public_ips := [] |}).
    + repeat split; try reflexivity; eexists; reflexivity.
    + reflexivity.
    + reflexivity.
Defined.

(** ** The choice of the size *)

(** [sort_by_price] is a stable sort: its result is in ascending order of
    price, and the sizes of any one price stand in it as they stood in the
    list sorted. *)
Lemma insert_by_price_hd (a x : Size) (l : list Size) :
  cheaper_or_equal a x -> HdRel cheaper_or_equal a l ->
  HdRel cheaper_or_equal a (insert_by_price x l).
Proof.
  intros Hax Hal. destruct l as [| y l]; cbn; [constructor; exact Hax |].
  destruct (Qle_bool (price x) (price y)); constructor;
    [exact Hax | inversion Hal; assumption].
Qed.

Lemma insert_by_price_sorted (x : Size) (l : list Size) :
  Sorted cheaper_or_equal l -> Sorted cheaper_or_equal (insert_by_price x l).
Proof.
  induction 1 as [| y l Hsorted IH Hhd]; cbn; [repeat constructor |].
  destruct (Qle_bool (price x) (price y)) eqn:Hcmp.
  - apply Qle_bool_iff in Hcmp. repeat constructor; assumption.
  - constructor; [exact IH |].
    apply insert_by_price_hd; [| exact Hhd].
    apply Qlt_le_weak, Qnot_le_lt. intros Hc.
    apply Qle_bool_iff in Hc. congruence.
Qed.

Lemma sort_by_price_sorted (l : list Size) :
  Sorted cheaper_or_equal (sort_by_price l).
Proof.
  induction l as [| x l IH]; cbn; [constructor |].
  apply insert_by_price_sorted, IH.
Qed.

Lemma insert_by_price_stable (p : Q) (x : Size) (l : list Size) :
  filter (priced p) (insert_by_price x l) = filter (priced p) (x :: l).
Proof.
  induction l as [| y l IH]; [reflexivity |].
  cbn [insert_by_price].
  destruct (Qle_bool (price x) (price y)) eqn:Hcmp; [reflexivity |].
  cbn [filter] in *. rewrite IH.
  destruct (priced p x) eqn:Hx; [| reflexivity].
  destruct (priced p y) eqn:Hy; [| reflexivity].
  unfold priced in Hx, Hy. apply Qeq_bool_iff in Hx, Hy.
  assert (Hle : (price x <= price y)%Q) by (rewrite Hx, Hy; apply Qle_refl).
  apply Qle_bool_iff in Hle. congruence.
Qed.

Lemma sort_by_price_stable (p : Q) (l : list Size) :
  filter (priced p) (sort_by_price l) = filter (priced p) l.
Proof.
  induction l as [| x l IH]; [reflexivity |].
  cbn [sort_by_price]. rewrite insert_by_price_stable.
  cbn [filter]. rewrite IH. reflexivity.
Qed.

Lemma insert_by_price_perm (x : Size) (l : list Size) :
  Permutation (x :: l) (insert_by_price x l).
Proof.
  induction l as [| y l IH]; cbn; [reflexivity |].
  destruct (Qle_bool (price x) (price y)); [reflexivity |].
  rewrite perm_swap. apply perm_skip, IH.
Qed.

Lemma sort_by_price_perm (l : list Size) : Permutation l (sort_by_price l).
Proof.
  induction l as [| x l IH]; cbn; [reflexivity |].
  rewrite <- insert_by_price_perm. apply perm_skip, IH.
Qed.

(** The head of the sorted list is the first of the elements of lowest
    price of the list as the provider returned it. *)
Lemma sort_by_price_head (l : list Size) :
  l <> [] ->
  exists size rest before after,
    sort_by_price l = size :: rest
    /\ l = (before ++ size :: after)%list
    /\ (forall y, In y before -> (price size < price y)%Q)
    /\ (forall y, In y after -> (price size <= price y)%Q).
Proof.
  induction l as [| x l IH]; [congruence | intros _].
  destruct l as [| x' l'].
  - exists x, [], [], []. cbn. repeat split; intros y [].
  - destruct IH as (m & rest & before & after & Hsort & Hsplit & Hlt & Hle);
      [discriminate |].
    cbn [sort_by_price] in *. rewrite Hsort. cbn [insert_by_price].
    destruct (Qle_bool (price x) (price m)) eqn:Hcmp.
    + apply Qle_bool_iff in Hcmp.
      exists x, (m :: rest), [], (x' :: l'). repeat split.
      * intros y [].
      * intros y Hy. rewrite Hsplit in Hy.
        apply in_app_or in Hy. destruct Hy as [Hy | [<- | Hy]].
        -- apply Qle_trans with (price m);
             [exact Hcmp | apply Qlt_le_weak, Hlt, Hy].
        -- exact Hcmp.
        -- apply Qle_trans with (price m); [exact Hcmp | apply Hle, Hy].
    + assert (Hgt : (price m < price x)%Q).
      { apply Qnot_le_lt. intros Hc. apply Qle_bool_iff in Hc. congruence. }
      exists m, (insert_by_price x rest), (x :: before), after. repeat split.
      * rewrite Hsplit. reflexivity.
      * intros y [<- | Hy]; [exact Hgt | apply Hlt, Hy].
      * exact Hle.
Qed.

(** C7.  When the provider returns a non-empty list of sizes for the chosen
    location, the size with which [test] asks for the node is an element of
    that list whose price is the lowest of the whole list, and the first
    such element in the order of the provider: every size before it costs
    strictly more, every size after it costs at least as much.  For the
    prices 1.2, 0.1, 999, 0.01, 0.011 of the test suite that is the size
    priced 0.01. *)
Theorem test_launches_cheapest_size
    (w : World) (GCE_EMAIL GCE_KEYPATH GCE_STORAGE_CONTAINER : string)
    (image : StorageObject) (st : State)
    (gce_image : GceImage) (location : Location) (others : list Location)
    (sizes : list Size) :
  registers w GCE_STORAGE_CONTAINER image gce_image ->
  list_locations w = Ok (location :: others) ->
  list_sizes w location = Ok sizes ->
  sizes <> [] ->
  exists size before after,
    sizes = (before ++ size :: after)%list
    /\ (forall y, In y before -> (price size < price y)%Q)
    /\ (forall y, In y after -> (price size <= price y)%Q)
    /\ hd_error (sort_by_price sizes) = Some size
    /\ exists later,
         calls (snd (test w GCE_EMAIL GCE_KEYPATH GCE_STORAGE_CONTAINER
                          image st))
         = (calls st
            ++ calls_to_launch GCE_STORAGE_CONTAINER image gce_image
                               location size
            ++ later)%list.
Proof.
  intros Hreg Hloc Hsizes Hne.
  destruct (sort_by_price_head sizes Hne)
    as (size & rest & before & after & Hsort & Hsplit & Hlt & Hle).
  exists size, before, after.
  split; [exact Hsplit |]. split; [exact Hlt |]. split; [exact Hle |].
  split; [rewrite Hsort; reflexivity |].
  destruct (test_registered w GCE_EMAIL GCE_KEYPATH GCE_STORAGE_CONTAINER
              image gce_image st Hreg) as (st1 & -> & _ & _ & Hc1).
  unfold after_registration.
  unfold bind at 1. unfold call at 1. rewrite Hloc.
  unfold bind at 1. unfold index0 at 1, ret at 1.
  unfold bind at 1. unfold call at 1. rewrite Hsizes.
  unfold bind at 1. rewrite Hsort. unfold index0 at 1, ret at 1.
  unfold bind at 1. unfold log at 1.
  unfold bind at 1. unfold call at 1.
  destruct (create_node w (gce_name gce_image) size gce_image location)
    as [node | e].
  - unfold bind at 1. unfold append_node at 1.
    match goal with
    | |- context [after_launch w GCE_EMAIL GCE_KEYPATH image node ?s] =>
        destruct (tail_quiet w GCE_EMAIL GCE_KEYPATH image node s)
          as [[_ [later Hlater]] _]
    end.
    exists later. rewrite Hlater. cbn. rewrite Hc1.
    rewrite <- !app_assoc. reflexivity.
  - exists []. cbn. rewrite Hc1, <- !app_assoc. reflexivity.
Qed.

Lemma test_launches_cheapest_size_witness :
  exists size later,
    price size = 0.01%Q
    /\ hd_error (sort_by_price sample_sizes) = Some size
    /\ calls (snd (test calm "fedimg@example.org" "/etc/key" "fedimg-bucket"
                        sample_image init))
       = (calls_to_launch "fedimg-bucket" sample_image sample_gce_image
                          sample_location size
          ++ later)%list.
Proof.
  destruct (test_launches_cheapest_size
              calm "fedimg@example.org" "/etc/key" "fedimg-bucket"
              sample_image init sample_gce_image sample_location []
              sample_sizes eq_refl eq_refl eq_refl)
    as (size & before & after & _ & _ & _ & Hhd & later & Hcalls).
  - discriminate.
  - exists size, later. split; [| split; [exact Hhd | exact Hcalls]].
    vm_compute in Hhd. injection Hhd as <-. reflexivity.
Defined.

(** ** The derived image name *)

Section Runs.

Variable cls : ascii -> bool.
Variable repl : string.

(** The runs are a decomposition of the string, each run is non-empty and
    of one kind, and neighbours differ in kind: the runs are maximal. *)
Lemma runs_concat (s : string) :
  fold_right (fun br acc => snd br ++ acc) EmptyString (runs cls s) = s.
Proof.
  induction s as [| c s IH]; [reflexivity |].
  cbn [runs]. destruct (runs cls s) as [| [b r] rest]; cbn in *.
  - subst s. reflexivity.
  - destruct (Bool.eqb b (cls c)); cbn; rewrite IH; reflexivity.
Qed.

Lemma runs_uniform (s : string) :
  Forall (fun br => snd br <> EmptyString
                    /\ all_chars (fun c => Bool.eqb (cls c) (fst br)) (snd br)
                       = true)
         (runs cls s).
Proof.
  induction s as [| c s IH]; [constructor |].
  cbn [runs]. destruct (runs cls s) as [| [b r] rest].
  - repeat constructor; [discriminate |].
    cbn. rewrite eqb_reflx. reflexivity.
  - inversion IH as [| ? ? [Hne Hall] Hrest]; subst.
    destruct (Bool.eqb b (cls c)) eqn:Hb.
    + constructor; [| exact Hrest]. split; [discriminate |].
      cbn in *. apply eqb_prop in Hb. subst b.
      rewrite eqb_reflx, Hall. reflexivity.
    + constructor; [| exact IH]. split; [discriminate |].
      cbn. rewrite eqb_reflx. reflexivity.
Qed.

Lemma runs_alternate (s : string) : alternate (runs cls s).
Proof.
  induction s as [| c s IH]; [exact I |].
  cbn [runs]. destruct (runs cls s) as [| [b r] rest]; [exact I |].
  destruct (Bool.eqb b (cls c)) eqn:Hb.
  - destruct rest; [exact I | exact IH].
  - split; [| exact IH]. cbn. intros <-.
    rewrite eqb_reflx in Hb. discriminate.
Qed.

(** The scan of [re.sub] writes the runs: started outside a match it writes
    all of them; started inside a match it goes on consuming a first run
    that lies in the class. *)
Lemma re_sub_plus_runs (s : string) :
  re_sub_plus cls repl false s = replace_runs cls repl s
  /\ re_sub_plus cls repl true s =
     match runs cls s with
     | (true, _) :: rest => render repl rest
     | rs => render repl rs
     end.
Proof.
  unfold replace_runs.
  induction s as [| c s [IHf IHt]]; [split; reflexivity |].
  cbn [re_sub_plus runs]. rewrite IHf, IHt.
  destruct (runs cls s) as [| [[|] r] rest];
    destruct (cls c); cbn; auto.
Qed.

End Runs.

(** [split_0] cuts at the first occurrence of the separator. *)
Lemma split_0_first (sep s : string) :
  exists rest,
    s = split_0 sep s ++ rest
    /\ (rest = EmptyString \/ String.prefix sep rest = true)
    /\ forall p q, split_0 sep s = p ++ q -> q <> EmptyString ->
                   String.prefix sep (q ++ rest) = false.
Proof.
  induction s as [| c s (rest & Hs & Hrest & Hfirst)].
  - exists EmptyString.
    assert (Hnil : split_0 sep EmptyString = EmptyString).
    { destruct sep; reflexivity. }
    rewrite Hnil. split; [reflexivity |]. split; [left; reflexivity |].
    intros p q Hsplit Hq. destruct p; destruct q; cbn in Hsplit; congruence.
  - cbn [split_0]. destruct (String.prefix sep (String c s)) eqn:Hp.
    + exists (String c s). split; [reflexivity |]. split; [right; exact Hp |].
      intros p q Hsplit Hq. destruct p; destruct q; cbn in Hsplit; congruence.
    + exists rest. split; [| split].
      * cbn. rewrite <- Hs. reflexivity.
      * exact Hrest.
      * intros [| c' p] q Hsplit Hq.
        -- cbn in Hsplit. subst q. cbn [append]. rewrite <- Hs. exact Hp.
        -- cbn in Hsplit. injection Hsplit as _ Hsplit.
           apply (Hfirst p q Hsplit Hq).
Qed.

(** C6 (as amended).  For every object name the derived image name is what
    stands before the first occurrence of [.tar.gz] in the name (the whole
    name when there is none), with every maximal run of characters outside
    [A-Za-z0-9] replaced by a single hyphen; the name
    [fake-img-1.2-3.tar.gz] gives [fake-img-1-2-3]. *)
Theorem gce_image_name_of_first_tar_gz (object_name : string) :
  gce_image_name_of object_name
  = replace_runs non_alnum "-" (split_0 ".tar.gz" object_name)
  /\ (exists rest,
        object_name = split_0 ".tar.gz" object_name ++ rest
        /\ (rest = EmptyString \/ String.prefix ".tar.gz" rest = true)
        /\ forall p q, split_0 ".tar.gz" object_name = p ++ q ->
                       q <> EmptyString ->
                       String.prefix ".tar.gz" (q ++ rest) = false)
  /\ gce_image_name_of "fake-img-1.2-3.tar.gz" = "fake-img-1-2-3".
Proof.
  split; [| split].
  - unfold gce_image_name_of. apply re_sub_plus_runs.
  - apply split_0_first.
  - reflexivity.
Qed.

Lemma gce_image_name_of_first_tar_gz_witness :
  gce_image_name_of "image.tar.gz.sha256" = "image"
  /\ String.prefix ".tar.gz" ("e" ++ ".tar.gz.sha256") = false.
Proof.
  destruct (gce_image_name_of_first_tar_gz "image.tar.gz.sha256")
    as (Hname & (rest & Hcut & _ & Hfirst) & _).
  split; [rewrite Hname; reflexivity |].
  assert (Hrest : rest = ".tar.gz.sha256").
  { cbn in Hcut. injection Hcut as <-. reflexivity. }
  rewrite <- Hrest.
  apply (Hfirst "imag" "e"); [reflexivity | discriminate].
Defined.

(** C6 as stated does not hold for a name in which [.tar.gz] occurs before
    the end: the code cuts at the first occurrence, whether or not the
    name ends there. *)
Lemma gce_image_name_of_not_suffix_strip :
  gce_image_name_of "image.tar.gz.sha256" = "image"
  /\ spec_image_name "image.tar.gz.sha256" = "image-tar-gz-sha256"
  /\ gce_image_name_of "image.tar.gz.sha256"
     <> spec_image_name "image.tar.gz.sha256"
  /\ gce_image_name_of "fedora.tar.gz-22.tar.gz" = "fedora"
  /\ spec_image_name "fedora.tar.gz-22.tar.gz" = "fedora-tar-gz-22".
Proof. repeat split. discriminate. Qed.

(** ** upload *)

Lemma append_assoc (a b c : string) : (a ++ b) ++ c = a ++ (b ++ c).
Proof. induction a as [| x a IH]; cbn; [| rewrite IH]; reflexivity. Qed.

(** C8.  When the container can be had and the fetch of the source URL
    answers with a status that is not a success, [upload] raises
    [ImageURLError] with a message that holds the URL and the status code
    in decimal (for the code -1 it ends in [response code was -1]); the
    outside calls made are those for the container and the fetch, and no
    upload to storage is among them. *)
Theorem upload_bad_status
    (w : World) (GCE_STORAGE_CONTAINER image_url : string)
    (container : Container) (resp : Response) (st : State) :
  resolves_container w GCE_STORAGE_CONTAINER container ->
  requests_get w image_url = Ok resp ->
  ok resp = false ->
  fst (upload w GCE_STORAGE_CONTAINER image_url st)
  = Raise (ImageURLError
             ("GET request to image failed (" ++ image_url
              ++ "). The server response code was "
              ++ format_int (status_code resp)))
  /\ (exists resolving,
        calls (snd (upload w GCE_STORAGE_CONTAINER image_url st))
        = (calls st ++ resolving ++ [requests_get_call image_url true])%list
        /\ (resolving = [get_container_call GCE_STORAGE_CONTAINER]
            \/ resolving = [get_container_call GCE_STORAGE_CONTAINER;
                            create_container_call GCE_STORAGE_CONTAINER]))
  /\ (status_code resp = -1 ->
      exists before,
        bad_response image_url (status_code resp)
        = before ++ "response code was -1").
Proof.
  intros Hcontainer Hget Hbad.
  assert (Hrun : exists resolving st',
             upload w GCE_STORAGE_CONTAINER image_url st
             = (Raise (ImageURLError
                         (bad_response image_url (status_code resp))), st')
             /\ calls st'
                = (calls st ++ resolving
                            ++ [requests_get_call image_url true])%list
             /\ (resolving = [get_container_call GCE_STORAGE_CONTAINER]
                 \/ resolving = [get_container_call GCE_STORAGE_CONTAINER;
                                 create_container_call
                                   GCE_STORAGE_CONTAINER])).
  { unfold upload. unfold bind at 1. unfold log at 1.
    unfold bind at 1. unfold get_or_create_container, call at 1.
    destruct Hcontainer as [Hthere | [Hmissing Hcreate]].
    - exists [get_container_call GCE_STORAGE_CONTAINER]. eexists.
      rewrite Hthere. unfold bind at 1. unfold call at 1. rewrite Hget, Hbad.
      split; [reflexivity |]. split; [| left; reflexivity].
      cbn. rewrite <- app_assoc. reflexivity.
    - exists [get_container_call GCE_STORAGE_CONTAINER;
              create_container_call GCE_STORAGE_CONTAINER]. eexists.
      rewrite Hmissing. unfold bind at 1. unfold log at 1.
      unfold call at 1. rewrite Hcreate.
      unfold bind at 1. unfold call at 1. rewrite Hget, Hbad.
      split; [reflexivity |]. split; [| right; reflexivity].
      cbn. rewrite <- !app_assoc. reflexivity. }
  destruct Hrun as (resolving & st' & -> & Hcalls & Hwhich).
  split; [reflexivity |]. split.
  - exists resolving. split; [exact Hcalls | exact Hwhich].
  - intros ->.
    exists ("GET request to image failed (" ++ image_url
            ++ "). The server ").
    unfold bad_response. rewrite !append_assoc. reflexivity.
Qed.

Lemma upload_bad_status_witness :
  fst (upload bad_status "fedimg-bucket"
              "http://fake.fedimg.com/fake-img-1.2-3.tar.gz" init)
  = Raise (ImageURLError
             ("GET request to image failed "
              ++ "(http://fake.fedimg.com/fake-img-1.2-3.tar.gz). "
              ++ "The server response code was -1"))
  /\ fst (upload bad_status_no_container "fedimg-bucket"
                 "http://fake.fedimg.com/fake-img-1.2-3.tar.gz" init)
     = Raise (ImageURLError
                ("GET request to image failed "
                 ++ "(http://fake.fedimg.com/fake-img-1.2-3.tar.gz). "
                 ++ "The server response code was 404")).
Proof.
  split.
  - apply (proj1 (upload_bad_status
                    bad_status "fedimg-bucket"
                    "http://fake.fedimg.com/fake-img-1.2-3.tar.gz"
                    {| container_name := "fedimg-bucket" |}
                    {| ok := false; status_code := -1 |} init
                    (or_introl eq_refl) eq_refl eq_refl)).
  - apply (proj1 (upload_bad_status
                    bad_status_no_container "fedimg-bucket"
                    "http://fake.fedimg.com/fake-img-1.2-3.tar.gz"
                    {| container_name := "fedimg-bucket" |}
                    {| ok := false; status_code := 404 |} init
                    (or_intror (conj eq_refl eq_refl)) eq_refl eq_refl)).
Defined.

(** ** share and publish *)

Section Distribution.

Variable w : World.
Variable GCE_STORAGE_CONTAINER : string.
Variable image : StorageObject.

Local Abbreviation grant := (reader_grant GCE_STORAGE_CONTAINER image).

(** [share] asks for the grants in the order of the list and stops at the
    first one that raises: the grants asked for are those of an initial
    part of the list. *)
Lemma share_grants_prefix (entities : list string) : forall st,
  exists n,
    calls (snd (share w GCE_STORAGE_CONTAINER image entities st))
    = (calls st ++ map grant (firstn n entities))%list.
Proof.
  unfold share.
  induction entities as [| entity entities IH]; intros st.
  - exists 0%nat. cbn. rewrite app_nil_r. reflexivity.
  - cbn [for_each]. unfold bind at 1. unfold bind at 1. unfold log at 1.
    unfold call_after at 1.
    destruct (ex_set_permissions w _ GCE_STORAGE_CONTAINER (name image)
                                 entity "READER") as [[] | e].
    + match goal with
      | |- context [for_each entities ?body ?s] =>
          destruct (IH s) as [n Hn]
      end.
      exists (S n). rewrite Hn. cbn. rewrite <- app_assoc. reflexivity.
    + exists 1%nat. reflexivity.
Qed.

Lemma share_grants_all (entities : list string) : forall st,
  (forall h entity,
      ex_set_permissions w h GCE_STORAGE_CONTAINER (name image) entity
                         "READER" = Ok tt) ->
  exists st',
    share w GCE_STORAGE_CONTAINER image entities st = (Ok tt, st')
    /\ calls st' = (calls st ++ map grant entities)%list.
Proof.
  unfold share.
  induction entities as [| entity entities IH]; intros st Hok.
  - exists st. cbn. rewrite app_nil_r. auto.
  - cbn [for_each]. unfold bind at 1. unfold bind at 1. unfold log at 1.
    unfold call_after at 1. rewrite Hok.
    match goal with
    | |- context [for_each entities ?body ?s] =>
        destruct (IH s Hok) as (st' & -> & Hc)
    end.
    exists st'. split; [reflexivity |].
    rewrite Hc. cbn. rewrite <- app_assoc. reflexivity.
Qed.

End Distribution.

(** C9.  [publish] asks for exactly one grant: the READER role on the
    object name of the image, in the configured container, for the entity
    [allUsers].  [share] asks for the READER role on that object name for
    the entities of the list, in their order, and for no other entity; it
    goes through the whole list when no grant raises, and stops at the
    first grant that does. *)
Theorem share_and_publish_grants
    (w : World) (GCE_STORAGE_CONTAINER : string) (image : StorageObject)
    (entities : list string) (st : State) :
  calls (snd (publish w GCE_STORAGE_CONTAINER image st))
  = (calls st
     ++ [ex_set_permissions_call GCE_STORAGE_CONTAINER (name image)
                                 "allUsers" "READER"])%list
  /\ ((forall h entity,
          ex_set_permissions w h GCE_STORAGE_CONTAINER (name image) entity
                             "READER" = Ok tt) ->
      fst (share w GCE_STORAGE_CONTAINER image entities st) = Ok tt
      /\ calls (snd (share w GCE_STORAGE_CONTAINER image entities st))
         = (calls st
            ++ map (fun entity =>
                      ex_set_permissions_call GCE_STORAGE_CONTAINER
                        (name image) entity "READER")
                   entities)%list)
  /\ (exists n,
        calls (snd (share w GCE_STORAGE_CONTAINER image entities st))
        = (calls st
           ++ map (fun entity =>
                     ex_set_permissions_call GCE_STORAGE_CONTAINER
                       (name image) entity "READER")
                  (firstn n entities))%list).
Proof.
  split; [reflexivity |]. split.
  - intros Hok.
    destruct (share_grants_all w GCE_STORAGE_CONTAINER image entities st Hok)
      as (st' & -> & Hc).
    split; [reflexivity | exact Hc].
  - apply share_grants_prefix.
Qed.

Lemma share_and_publish_grants_witness :
  fst (share calm "fedimg-bucket" sample_image
             ["user-alice@example.org"; "group-qa@example.org"] init) = Ok tt
  /\ calls (snd (share calm "fedimg-bucket" sample_image
                       ["user-alice@example.org"; "group-qa@example.org"]
                       init))
     = [ex_set_permissions_call "fedimg-bucket" "fake-img-1.2-3.tar.gz"
          "user-alice@example.org" "READER";
        ex_set_permissions_call "fedimg-bucket" "fake-img-1.2-3.tar.gz"
          "group-qa@example.org" "READER"].
Proof.
  apply (proj1 (proj2 (share_and_publish_grants
                         calm "fedimg-bucket" sample_image
                         ["user-alice@example.org"; "group-qa@example.org"]
                         init))).
  intros h entity. reflexivity.
Defined.

(** [share] is fail-fast: after a refused grant the entities that follow
    are not served. *)
Example share_stops_at_refusal :
  fst (share refuses_second_grant "fedimg-bucket" sample_image
             ["user-alice@example.org"; "group-qa@example.org";
              "user-bob@example.org"] init)
  = Raise (OtherError "GoogleBaseError")
  /\ calls (snd (share refuses_second_grant "fedimg-bucket" sample_image
                       ["user-alice@example.org"; "group-qa@example.org";
                        "user-bob@example.org"] init))
     = [ex_set_permissions_call "fedimg-bucket" "fake-img-1.2-3.tar.gz"
          "user-alice@example.org" "READER";
        ex_set_permissions_call "fedimg-bucket" "fake-img-1.2-3.tar.gz"
          "group-qa@example.org" "READER"].
Proof. split; reflexivity. Qed.

(** * Further properties *)

(** ** Strings *)

Lemma prefix_app (a s : string) :
  String.prefix a s = true <-> exists rest, s = a ++ rest.
Proof.
  revert s. induction a as [| x a IH]; intros s.
  - split; [intros _; exists s; reflexivity | intros _; destruct s; reflexivity].
  - destruct s as [| y s]; cbn.
    + split; [discriminate | intros [rest Hrest]; discriminate].
    + destruct (ascii_dec x y) as [-> | Hne].
      * rewrite IH. split; intros [rest Hrest]; exists rest.
        -- rewrite Hrest. reflexivity.
        -- injection Hrest as ->. reflexivity.
      * split; [discriminate |].
        intros [rest Hrest]. injection Hrest as <- _. congruence.
Qed.

Lemma occurs_here (sub s : string) :
  String.prefix sub s = true -> occurs sub s.
Proof.
  intros Hp. apply prefix_app in Hp. destruct Hp as [rest ->].
  exists EmptyString, rest. reflexivity.
Qed.

Lemma occurs_later (sub s : string) (c : ascii) :
  occurs sub s -> occurs sub (String c s).
Proof.
  intros (before & after & ->). exists (String c before), after. reflexivity.
Qed.

Lemma occurs_cons (sub s : string) (c : ascii) :
  occurs sub (String c s) ->
  String.prefix sub (String c s) = true \/ occurs sub s.
Proof.
  intros ([| x before] & after & Hs).
  - left. apply prefix_app. exists after. exact Hs.
  - right. cbn in Hs. injection Hs as _ ->. exists before, after. reflexivity.
Qed.

Lemma find_miss_or_index (sub s : string) : find sub s = -1 \/ 0 <= find sub s.
Proof.
  induction s as [| c s IH]; cbn [find].
  - destruct (String.prefix sub EmptyString); lia.
  - destruct (String.prefix sub (String c s)); [lia |].
    cbv zeta. destruct (find sub s =? -1) eqn:E; lia.
Qed.

(** [find] answers -1 exactly when there is no occurrence. *)
Lemma find_miss (sub s : string) : find sub s = -1 <-> ~ occurs sub s.
Proof.
  induction s as [| c s IH]; cbn [find].
  - destruct (String.prefix sub EmptyString) eqn:Hp.
    + split; [discriminate |]. intros Hno. destruct Hno.
      apply occurs_here, Hp.
    + split; [| reflexivity]. intros _ ([| x before] & after & Hs).
      * assert (String.prefix sub EmptyString = true)
          by (apply prefix_app; exists after; exact Hs).
        congruence.
      * discriminate.
  - destruct (String.prefix sub (String c s)) eqn:Hp.
    + split; [discriminate |]. intros Hno. destruct Hno.
      apply occurs_here, Hp.
    + cbv zeta. destruct (find sub s =? -1) eqn:E.
      * apply Z.eqb_eq in E. split; [| reflexivity].
        intros _ Hocc. apply occurs_cons in Hocc.
        destruct Hocc as [Hhere | Hlater]; [congruence |].
        apply IH in E. contradiction.
      * apply Z.eqb_neq in E. split.
        -- destruct (find_miss_or_index sub s); lia.
        -- intros Hno. destruct E. apply IH. intros Hocc.
           apply Hno, occurs_later, Hocc.
Qed.

Lemma find_index_occurs (sub s : string) : find sub s <> -1 -> occurs sub s.
Proof.
  induction s as [| c s IH]; cbn [find].
  - destruct (String.prefix sub EmptyString) eqn:Hp;
      [intros _; apply occurs_here, Hp | congruence].
  - destruct (String.prefix sub (String c s)) eqn:Hp;
      [intros _; apply occurs_here, Hp |].
    cbv zeta. destruct (find sub s =? -1) eqn:E; [congruence |].
    intros _. apply occurs_later, IH, Z.eqb_neq, E.
Qed.

Lemma find_hit (sub s : string) :
  negb (find sub s =? -1) = true <-> occurs sub s.
Proof.
  rewrite negb_true_iff, Z.eqb_neq. split.
  - apply find_index_occurs.
  - intros Hocc Hmiss. apply find_miss in Hmiss. contradiction.
Qed.

Lemma find_no_hit (sub s : string) :
  negb (find sub s =? -1) = false <-> ~ occurs sub s.
Proof.
  rewrite <- find_hit. destruct (negb (find sub s =? -1)); split;
    congruence.
Qed.

Lemma endswith_correct (s suffix : string) :
  endswith s suffix = true <-> exists stem, s = stem ++ suffix.
Proof.
  induction s as [| c s IH]; cbn [endswith].
  - destruct (String.eqb EmptyString suffix) eqn:E.
    + apply String.eqb_eq in E. subst suffix.
      split; [intros _; exists EmptyString; reflexivity | reflexivity].
    + apply String.eqb_neq in E. split; [discriminate |].
      intros [[| x stem] Hs]; [| discriminate]. cbn in Hs. congruence.
  - destruct (String.eqb (String c s) suffix) eqn:E.
    + apply String.eqb_eq in E. subst suffix.
      split; [intros _; exists EmptyString; reflexivity | reflexivity].
    + apply String.eqb_neq in E. rewrite IH.
      split; intros [stem Hs].
      * exists (String c stem). rewrite Hs. reflexivity.
      * destruct stem as [| x stem]; [cbn in Hs; congruence |].
        cbn in Hs. injection Hs as _ ->. exists stem. reflexivity.
Qed.

(** ** get_file_arch *)

(** X1.  [get_file_arch] answers [i386] exactly for the names in which
    [i386] occurs, [x86_64] exactly for the names in which [x86_64] occurs
    and [i386] does not, and [None] exactly for the names in which neither
    occurs: a name that holds both is taken for a 32-bit image. *)
Theorem get_file_arch_by_occurrence (file_name : string) :
  (get_file_arch file_name = Some "i386" <-> occurs "i386" file_name)
  /\ (get_file_arch file_name = Some "x86_64"
      <-> occurs "x86_64" file_name /\ ~ occurs "i386" file_name)
  /\ (get_file_arch file_name = None
      <-> ~ occurs "i386" file_name /\ ~ occurs "x86_64" file_name).
Proof.
  unfold get_file_arch.
  destruct (negb (find "i386" file_name =? -1)) eqn:E32;
    [apply find_hit in E32 | apply find_no_hit in E32];
    (destruct (negb (find "x86_64" file_name =? -1)) eqn:E64;
     [apply find_hit in E64 | apply find_no_hit in E64]);
    repeat split; try discriminate; try tauto;
    intros; exfalso; tauto.
Qed.

Lemma get_file_arch_by_occurrence_witness :
  (occurs "x86_64" "Fedora-Cloud-Base-22-20150521.x86_64.raw.xz"
   /\ ~ occurs "i386" "Fedora-Cloud-Base-22-20150521.x86_64.raw.xz")
  /\ get_file_arch "Fedora-i386-on-x86_64.raw.xz" = Some "i386".
Proof.
  split.
  - apply (proj1 (proj1 (proj2 (get_file_arch_by_occurrence
                                  "Fedora-Cloud-Base-22-20150521.x86_64.raw.xz")))).
    reflexivity.
  - apply (proj2 (proj1 (get_file_arch_by_occurrence
                           "Fedora-i386-on-x86_64.raw.xz"))).
    exists "Fedora-", "-on-x86_64.raw.xz". reflexivity.
Defined.

(** ** virt_types_from_url *)

Lemma after_last_slash_slashless (file acc : string) :
  ~ occurs "/" file -> after_last_slash acc file = acc ++ file.
Proof.
  revert acc. induction file as [| c file IH]; intros acc Hno; cbn.
  - clear Hno. induction acc as [| x acc IHacc]; cbn; congruence.
  - destruct (Ascii.eqb c "/") eqn:E.
    + apply Ascii.eqb_eq in E. subst c. destruct Hno.
      exists EmptyString, file. reflexivity.
    + rewrite IH, append_assoc; [reflexivity |].
      intros Hocc. apply Hno, occurs_later, Hocc.
Qed.

Lemma after_last_slash_dir (dir file acc : string) :
  after_last_slash acc (dir ++ "/" ++ file)
  = after_last_slash EmptyString file.
Proof.
  revert acc. induction dir as [| c dir IH]; intros acc; cbn.
  - reflexivity.
  - destruct (Ascii.eqb c "/"); apply IH.
Qed.

(** What follows the last slash of [dir/file] is [file]. *)
Lemma basename_dir (dir file : string) :
  ~ occurs "/" file -> basename (dir ++ "/" ++ file) = file.
Proof.
  intros Hno. unfold basename.
  rewrite after_last_slash_dir, after_last_slash_slashless by exact Hno.
  reflexivity.
Qed.

Lemma lower_char_slash (c : ascii) :
  Ascii.eqb (lower_char c) "/" = Ascii.eqb c "/".
Proof. destruct c as [[] [] [] [] [] [] [] []]; reflexivity. Qed.

Lemma lower_app (a b : string) : lower (a ++ b) = lower a ++ lower b.
Proof. induction a as [| x a IH]; cbn; [| rewrite IH]; reflexivity. Qed.

Lemma lower_after_last_slash (s acc : string) :
  lower (after_last_slash acc s) = after_last_slash (lower acc) (lower s).
Proof.
  revert acc. induction s as [| c s IH]; intros acc; cbn; [reflexivity |].
  rewrite lower_char_slash. destruct (Ascii.eqb c "/").
  - apply IH.
  - rewrite IH, lower_app. reflexivity.
Qed.

(** X2.  Only the last segment of the URL counts: for a URL [dir/file]
    whose [file] holds no slash the answer is that for [file] alone; it is
    [hvm] alone exactly when [atomic] occurs in the lower-cased [file], and
    [hvm] and [paravirtual] otherwise, whatever [dir] holds. *)
Theorem virt_types_from_url_last_segment (dir file : string) :
  ~ occurs "/" file ->
  virt_types_from_url (dir ++ "/" ++ file) = virt_types_from_url file
  /\ (occurs "atomic" (lower file) ->
      virt_types_from_url (dir ++ "/" ++ file) = ["hvm"])
  /\ (~ occurs "atomic" (lower file) ->
      virt_types_from_url (dir ++ "/" ++ file) = ["hvm"; "paravirtual"]).
Proof.
  intros Hno. unfold virt_types_from_url.
  rewrite after_last_slash_dir.
  rewrite (after_last_slash_slashless file EmptyString Hno). cbn [append].
  split; [reflexivity |]. split; intros Hocc.
  - apply find_hit in Hocc. rewrite Hocc. reflexivity.
  - apply find_no_hit in Hocc. rewrite Hocc. reflexivity.
Qed.

Lemma virt_types_from_url_last_segment_witness :
  virt_types_from_url
    ("http://kojipkgs.example.org/atomic/22" ++ "/"
     ++ "Fedora-Cloud-Base-22.x86_64.raw.xz")
  = ["hvm"; "paravirtual"]
  /\ virt_types_from_url
       ("http://kojipkgs.example.org/cloud/22" ++ "/"
        ++ "Fedora-Cloud-Atomic-22.x86_64.raw.xz")
     = ["hvm"].
Proof.
  split.
  - refine (proj2 (proj2 (virt_types_from_url_last_segment
                            "http://kojipkgs.example.org/atomic/22"
                            "Fedora-Cloud-Base-22.x86_64.raw.xz" _)) _);
      apply find_no_hit; reflexivity.
  - refine (proj1 (proj2 (virt_types_from_url_last_segment
                            "http://kojipkgs.example.org/cloud/22"
                            "Fedora-Cloud-Atomic-22.x86_64.raw.xz" _)) _);
      [apply find_no_hit | apply find_hit]; reflexivity.
Defined.

(** X3.  The answer does not depend on the case of the letters of the
    URL. *)
Theorem virt_types_from_url_ignores_case (url url' : string) :
  lower url = lower url' ->
  virt_types_from_url url = virt_types_from_url url'.
Proof.
  intros Hsame. unfold virt_types_from_url.
  rewrite !lower_after_last_slash, Hsame. reflexivity.
Qed.

Lemma virt_types_from_url_ignores_case_witness :
  virt_types_from_url "http://example.org/Fedora-Cloud-ATOMIC-22.RAW.XZ"
  = virt_types_from_url "http://example.org/fedora-cloud-atomic-22.raw.xz".
Proof.
  apply (virt_types_from_url_ignores_case
           "http://example.org/Fedora-Cloud-ATOMIC-22.RAW.XZ"
           "http://example.org/fedora-cloud-atomic-22.raw.xz").
  reflexivity.
Defined.

(** ** safeget *)

Lemma index_path_app (keys keys' : list string) : forall dct v,
  index_path dct keys = inl v ->
  index_path dct (keys ++ keys') = index_path v keys'.
Proof.
  induction keys as [| key keys IH]; intros dct v Hv; cbn in *.
  - injection Hv as ->. reflexivity.
  - destruct (getitem dct key) as [x | e]; [apply IH, Hv | discriminate].
Qed.

Lemma safeget_after_path (keys keys' : list string) : forall dct v,
  index_path dct keys = inl v ->
  safeget dct (keys ++ keys') = safeget v keys'.
Proof.
  induction keys as [| key keys IH]; intros dct v Hv; cbn in *.
  - injection Hv as ->. reflexivity.
  - destruct (getitem dct key) as [x | e]; [apply IH, Hv | discriminate].
Qed.

(** X4.  [safeget] is plain nested indexing in which a [KeyError] at any
    depth becomes the answer [None]; it never raises [KeyError], and it
    raises what plain indexing raises otherwise. *)
Theorem safeget_catches_key_error (dct : value) (keys : list string) :
  safeget dct keys
  = match index_path dct keys with
    | inl v => inl v
    | inr (KeyError _) => inl VNone
    | inr e => inr e
    end
  /\ forall key, safeget dct keys <> inr (KeyError key).
Proof.
  revert dct. induction keys as [| key keys IH]; intros dct; cbn.
  - split; [reflexivity | discriminate].
  - destruct (getitem dct key) as [v | [k | |]] eqn:E.
    + apply IH.
    + split; [reflexivity | discriminate].
    + split; [reflexivity | discriminate].
    + split; [reflexivity | discriminate].
Qed.

(** X5.  When the keys [keys] lead to a value [v]: if [v] is a dictionary
    without the key [key], [safeget] answers [None] for [keys], [key] and
    any further keys; if [v] is not a dictionary, [safeget] raises
    [TypeError] for them, also when [v] is a [None] that the dictionary
    holds. *)
Theorem safeget_beyond_path
    (dct v : value) (keys : list string) (key : string)
    (further : list string) :
  index_path dct keys = inl v ->
  (forall items, v = VDict items -> lookup key items = None ->
                 safeget dct (keys ++ key :: further) = inl VNone)
  /\ (is_dict v = false ->
      safeget dct (keys ++ key :: further) = inr TypeError).
Proof.
  intros Hpath. rewrite (safeget_after_path keys (key :: further) dct v Hpath).
  split.
  - intros items -> Hmiss. cbn. rewrite Hmiss. reflexivity.
  - intros Hnot. destruct v; try discriminate; reflexivity.
Qed.

Lemma safeget_beyond_path_witness :
  safeget (VDict [("compose", VDict [("id", VStr "Fedora-22");
                                     ("respin", VNone)])])
          (["compose"] ++ "date" :: ["year"])
  = inl VNone
  /\ safeget (VDict [("compose", VDict [("id", VStr "Fedora-22");
                                        ("respin", VNone)])])
             (["compose"; "respin"] ++ "date" :: [])
     = inr TypeError.
Proof.
  split.
  - apply (proj1 (safeget_beyond_path
                    (VDict [("compose", VDict [("id", VStr "Fedora-22");
                                               ("respin", VNone)])])
                    (VDict [("id", VStr "Fedora-22"); ("respin", VNone)])
                    ["compose"] "date" ["year"] eq_refl)
                 [("id", VStr "Fedora-22"); ("respin", VNone)]);
      reflexivity.
  - apply (proj2 (safeget_beyond_path
                    (VDict [("compose", VDict [("id", VStr "Fedora-22");
                                               ("respin", VNone)])])
                    VNone ["compose"; "respin"] "date" [] eq_refl));
      reflexivity.
Defined.

(** ** get_rawxz_urls *)

Lemma rawxz_list_paths (images : list value) :
  (forall f, In f images -> exists p, getitem f "path" = inl (VStr p)) ->
  exists ps,
    rawxz_list images = inl ps
    /\ forall p, In p ps <->
                 (exists f stem, In f images
                                 /\ getitem f "path" = inl (VStr p)
                                 /\ p = stem ++ ".raw.xz").
Proof.
  induction images as [| f images IH]; intros Hpaths.
  - exists []. split; [reflexivity |].
    intros p. split; [intros [] | intros (f & stem & [] & _)].
  - destruct IH as (ps & Hps & Hin).
    { intros g Hg. apply Hpaths. right. exact Hg. }
    destruct (Hpaths f (or_introl eq_refl)) as [p0 Hp0].
    cbn [rawxz_list]. unfold path_of. rewrite Hp0, Hps.
    eexists. split; [reflexivity |].
    intros p. destruct (endswith p0 ".raw.xz") eqn:Hend.
    + apply endswith_correct in Hend. destruct Hend as [stem0 Hstem0].
      split.
      * intros [<- | Hp].
        -- exists f, stem0. split; [left; reflexivity | auto].
        -- apply Hin in Hp. destruct Hp as (g & stem & Hg & Hgp & Hstem).
           exists g, stem. split; [right; exact Hg | auto].
      * intros (g & stem & [<- | Hg] & Hgp & Hstem).
        -- left. congruence.
        -- right. apply Hin. exists g, stem. auto.
    + split.
      * intros Hp. apply Hin in Hp.
        destruct Hp as (g & stem & Hg & Hgp & Hstem).
        exists g, stem. split; [right; exact Hg | auto].
      * intros (g & stem & [<- | Hg] & Hgp & Hstem).
        -- assert (p0 = p) by congruence. subst p0.
           assert (endswith p ".raw.xz" = true)
             by (apply endswith_correct; exists stem; exact Hstem).
           congruence.
        -- apply Hin. exists g, stem. auto.
Qed.

(** X6.  When every image is a dictionary with a string under [path],
    [get_rawxz_urls] returns a list, and a URL is in it exactly when it is
    [location/p] for the path [p] of one of the images that ends in
    [.raw.xz]. *)
Theorem get_rawxz_urls_selects (location : string) (images : list value) :
  (forall f, In f images -> exists p, getitem f "path" = inl (VStr p)) ->
  exists urls,
    get_rawxz_urls location images = inl urls
    /\ forall url,
         In url urls <->
         (exists f p stem,
             In f images
             /\ getitem f "path" = inl (VStr p)
             /\ p = stem ++ ".raw.xz"
             /\ url = location ++ "/" ++ p).
Proof.
  intros Hpaths.
  destruct (rawxz_list_paths images Hpaths) as (ps & Hps & Hin).
  exists (map (fun path => location ++ "/" ++ path) ps). split.
  - unfold get_rawxz_urls. rewrite Hps. destruct ps; reflexivity.
  - intros url. rewrite in_map_iff. split.
    + intros (p & <- & Hp). apply Hin in Hp.
      destruct Hp as (f & stem & Hf & Hfp & Hstem).
      exists f, p, stem. auto.
    + intros (f & p & stem & Hf & Hfp & Hstem & ->).
      exists p. split; [reflexivity |]. apply Hin. exists f, stem. auto.
Qed.

Lemma get_rawxz_urls_selects_witness :
  exists urls,
    get_rawxz_urls "https://kojipkgs.example.org" sample_images = inl urls
    /\ forall url,
         In url urls <->
         (exists f p stem,
             In f sample_images
             /\ getitem f "path" = inl (VStr p)
             /\ p = stem ++ ".raw.xz"
             /\ url = "https://kojipkgs.example.org" ++ "/" ++ p).
Proof.
  apply (get_rawxz_urls_selects "https://kojipkgs.example.org" sample_images).
  intros f [<- | [<- | []]]; eexists; reflexivity.
Defined.

(** X7.  The first image that is a dictionary without the key [path]
    makes [get_rawxz_urls] raise [KeyError], whatever the other images
    hold, when the images before it have their string paths. *)
Theorem get_rawxz_urls_key_error
    (location : string) (before after : list value)
    (items : list (string * value)) :
  (forall f, In f before -> exists p, getitem f "path" = inl (VStr p)) ->
  lookup "path" items = None ->
  get_rawxz_urls location (before ++ VDict items :: after)
  = inr (KeyError "path").
Proof.
  intros Hbefore Hmiss. unfold get_rawxz_urls.
  assert (Hraw : rawxz_list (before ++ VDict items :: after)
                 = inr (KeyError "path")).
  { induction before as [| f before IH]; cbn [app rawxz_list].
    - unfold path_of. cbn. rewrite Hmiss. reflexivity.
    - destruct (Hbefore f (or_introl eq_refl)) as [p Hp].
      unfold path_of at 1. rewrite Hp, IH; [reflexivity |].
      intros g Hg. apply Hbefore. right. exact Hg. }
  rewrite Hraw. reflexivity.
Qed.

Lemma get_rawxz_urls_key_error_witness :
  get_rawxz_urls "https://kojipkgs.example.org"
                 (sample_images ++ pathless :: sample_images)
  = inr (KeyError "path").
Proof.
  apply (get_rawxz_urls_key_error "https://kojipkgs.example.org"
           sample_images sample_images [("size", VInt 100)]).
  - intros f [<- | [<- | []]]; eexists; reflexivity.
  - reflexivity.
Defined.

(** ** The SSH probe: closing, sleeping, other exceptions *)

Lemma close_count_app (cs cs' : list Call) :
  close_count (cs ++ cs') = (close_count cs + close_count cs')%nat.
Proof. unfold close_count. rewrite filter_app, length_app. reflexivity. Qed.

Lemma sleep_count_app (cs cs' : list Call) :
  sleep_count (cs ++ cs') = (sleep_count cs + sleep_count cs')%nat.
Proof. unfold sleep_count. rewrite filter_app, length_app. reflexivity. Qed.

Section ProbeCalls.

Variable w : World.
Variables username ip keypath : string.
Variables attempts interval : Z.

Local Abbreviation loop' :=
  (ssh_loop w username ip keypath attempts interval).

(** Whatever the attempts and the sleeps do, the calls that the loop adds
    end with the closing of the client and hold as many closings as
    attempts; they hold one sleep less when [time.sleep] returns, and never
    more sleeps than attempts. *)
Lemma ssh_loop_balanced (m : nat) : forall attempt st,
  (Z.to_nat (attempts - attempt) <= m)%nat ->
  exists earlier,
    calls (snd (loop' attempt st))
    = (calls st ++ earlier ++ [ssh_close_call])%list
    /\ close_count (earlier ++ [ssh_close_call])
       = connect_count (earlier ++ [ssh_close_call])
    /\ (sleep_count (earlier ++ [ssh_close_call])
        <= connect_count (earlier ++ [ssh_close_call]))%nat
    /\ (time_sleep w interval = Ok tt ->
        S (sleep_count (earlier ++ [ssh_close_call]))
        = connect_count (earlier ++ [ssh_close_call])).
Proof.
  induction m as [| m IH]; intros attempt st Hm;
    (destruct (ssh_connect w (attempt + 1) ip username keypath)
       as [u | e] eqn:Hconnect;
     [ rewrite (ssh_loop_ok w username ip keypath attempts interval
                            attempt st u Hconnect)
     | destruct (retryable e) eqn:Hretryable;
       [ destruct (Z_lt_ge_dec (attempt + 1) attempts) as [Hlt | Hge];
         [ destruct (time_sleep w interval) as [[] | e'] eqn:Hsleep;
           [ rewrite (ssh_loop_retry w username ip keypath attempts interval
                                     attempt st e Hconnect Hretryable Hlt
                                     Hsleep)
           | rewrite (ssh_loop_sleep_raises
                        w username ip keypath attempts interval
                        attempt st e e' Hconnect Hretryable Hlt Hsleep) ]
         | rewrite (ssh_loop_last w username ip keypath attempts interval
                                  attempt st e Hconnect Hretryable Hge) ]
       | rewrite (ssh_loop_other w username ip keypath attempts interval
                                 attempt st e Hconnect Hretryable) ] ]);
    try lia;
    try solve
      [ exists [ssh_connect_call ip username keypath];
        cbn; rewrite <- ?app_assoc;
        split; [reflexivity |]; split; [reflexivity |];
        split; [lia | intros _; reflexivity]
      | exists [ssh_connect_call ip username keypath; sleep_call interval];
        cbn; rewrite <- ?app_assoc;
        split; [reflexivity |]; split; [reflexivity |];
        split; [lia | discriminate] ].
  destruct (IH (attempt + 1)
               (after_retry ip username keypath interval e st))
    as (earlier & Hcalls & Hclose & Hle & Hsleeps); [lia |].
  exists (retried_attempt ip username keypath interval ++ earlier)%list.
  rewrite Hcalls. cbn [after_retry failed_attempt issue record calls].
  rewrite <- !app_assoc.
  split; [reflexivity |].
  rewrite close_count_app, connect_count_app, sleep_count_app.
  rewrite Hclose. cbn. split; [reflexivity |]. split; [lia |].
  intros _. rewrite <- (Hsleeps eq_refl). reflexivity.
Qed.

Lemma ssh_connection_works_other (k : nat) (st : State) (e : exn) :
  Z.of_nat k < attempt_budget attempts ->
  (forall j, 1 <= j <= Z.of_nat k ->
             attempt_fails w ip username keypath j = true) ->
  ssh_connect w (Z.of_nat k + 1) ip username keypath = Raise e ->
  retryable e = false ->
  time_sleep w interval = Ok tt ->
  exists st',
    ssh_connection_works w username ip keypath attempts interval st
    = (Raise e, st')
    /\ calls st'
       = (calls st ++ retried_attempts k ip username keypath interval
                   ++ final_attempt ip username keypath)%list.
Proof.
  intros Hk Hfail Hraise Hother Hsleep.
  rewrite ssh_connection_works_unfold.
  destruct (ssh_loop_after_failures w username ip keypath attempts interval
              k 0 (record INFO ("Testing SSH connectivity to "
                                ++ username ++ "@" ++ ip) st))
    as (st1 & Hloop & Hcalls & _ & _).
  { rewrite Z.sub_0_r. exact Hk. }
  { intros j Hj. apply Hfail. lia. }
  { exact Hsleep. }
  rewrite Hloop.
  rewrite (ssh_loop_other w username ip keypath attempts interval
                          (0 + Z.of_nat k) st1 e Hraise Hother).
  eexists. split; [reflexivity |].
  cbn. rewrite Hcalls. cbn. rewrite <- !app_assoc. reflexivity.
Qed.

End ProbeCalls.

(** X8.  In every run of the probe, whatever the attempts and
    [time.sleep] do and however it ends (with [True], with [False] or with
    an exception of the client or of [time.sleep]), the client is closed
    after every attempt and closing it is the last thing done: the calls
    that the probe adds hold as many closings as connection attempts.
    They never hold more sleeps than attempts, and they hold exactly one
    sleep less than attempts when [time.sleep] accepts the interval. *)
Theorem ssh_connection_works_closes_every_attempt
    (w : World) (username ip keypath : string) (attempts interval : Z)
    (st : State) :
  exists earlier,
    calls (snd (ssh_connection_works w username ip keypath attempts
                                     interval st))
    = (calls st ++ earlier ++ [ssh_close_call])%list
    /\ close_count (earlier ++ [ssh_close_call])
       = connect_count (earlier ++ [ssh_close_call])
    /\ (sleep_count (earlier ++ [ssh_close_call])
        <= connect_count (earlier ++ [ssh_close_call]))%nat
    /\ (time_sleep w interval = Ok tt ->
        S (sleep_count (earlier ++ [ssh_close_call]))
        = connect_count (earlier ++ [ssh_close_call])).
Proof.
  rewrite ssh_connection_works_unfold.
  destruct (ssh_loop_balanced w username ip keypath attempts interval
              (Z.to_nat (attempts - 0)) 0
              (record INFO ("Testing SSH connectivity to "
                            ++ username ++ "@" ++ ip) st) (le_n _))
    as (earlier & Hcalls & Hcounts).
  exists earlier. split; [exact Hcalls | exact Hcounts].
Qed.

Lemma ssh_connection_works_closes_every_attempt_witness :
  exists earlier,
    calls (snd (ssh_connection_works slow_boot "fedora" "203.0.113.7"
                                     "/etc/key" 5 10 init))
    = (earlier ++ [ssh_close_call])%list
    /\ close_count (earlier ++ [ssh_close_call]) = 3%nat
    /\ connect_count (earlier ++ [ssh_close_call]) = 3%nat
    /\ sleep_count (earlier ++ [ssh_close_call]) = 2%nat.
Proof.
  destruct (ssh_connection_works_closes_every_attempt
              slow_boot "fedora" "203.0.113.7" "/etc/key" 5 10 init)
    as (earlier & Hcalls & Hclose & _ & Hsleep).
  specialize (Hsleep eq_refl).
  exists earlier. split; [exact Hcalls |].
  assert (Hconnect : connect_count (earlier ++ [ssh_close_call]) = 3%nat).
  { cbn [app calls init] in Hcalls. rewrite <- Hcalls. reflexivity. }
  rewrite Hclose, Hconnect. split; [reflexivity |]. split; [reflexivity |].
  rewrite Hconnect in Hsleep. injection Hsleep as ->. reflexivity.
Defined.

(** X9.  An exception of a class that the probe does not retry ends it at
    once: for an interval that [time.sleep] accepts, when the attempts 1
    to [k] fail with retried classes, [k] is below the budget and attempt
    [k + 1] raises [e] of another class, the probe raises [e] after exactly
    those [k + 1] attempts, the client closed. *)
Theorem ssh_connection_works_propagates_other
    (w : World) (username ip keypath : string) (attempts interval : Z)
    (k : nat) (st : State) (e : exn) :
  time_sleep w interval = Ok tt ->
  Z.of_nat k < attempt_budget attempts ->
  (forall j, 1 <= j <= Z.of_nat k ->
             attempt_fails w ip username keypath j = true) ->
  ssh_connect w (Z.of_nat k + 1) ip username keypath = Raise e ->
  retryable e = false ->
  fst (ssh_connection_works w username ip keypath attempts interval st)
  = Raise e
  /\ calls (snd (ssh_connection_works w username ip keypath attempts
                                      interval st))
     = (calls st ++ retried_attempts k ip username keypath interval
                 ++ final_attempt ip username keypath)%list.
Proof.
  intros Hsleep Hk Hfail Hraise Hother.
  destruct (ssh_connection_works_other w username ip keypath attempts
              interval k st e Hk Hfail Hraise Hother Hsleep)
    as (st' & -> & Hc).
  split; [reflexivity | exact Hc].
Qed.

Lemma ssh_connection_works_propagates_other_witness :
  fst (ssh_connection_works broken_client "fedora" "203.0.113.7" "/etc/key"
                            60 60 init)
  = Raise (OtherError "IOError")
  /\ calls (snd (ssh_connection_works broken_client "fedora" "203.0.113.7"
                                      "/etc/key" 60 60 init))
     = [ssh_connect_call "203.0.113.7" "fedora" "/etc/key"; sleep_call 60;
        ssh_close_call;
        ssh_connect_call "203.0.113.7" "fedora" "/etc/key"; sleep_call 60;
        ssh_close_call;
        ssh_connect_call "203.0.113.7" "fedora" "/etc/key"; ssh_close_call].
Proof.
  apply (ssh_connection_works_propagates_other
           broken_client "fedora" "203.0.113.7" "/etc/key" 60 60 2%nat init
           (OtherError "IOError")).
  - reflexivity.
  - reflexivity.
  - intros j Hj. assert (j = 1 \/ j = 2) as [-> | ->] by lia; reflexivity.
  - reflexivity.
  - reflexivity.
Defined.

(** ** test: the steps that fail *)

(** X10.  When the provider refuses the registration with an exception,
    [test] raises that exception; nothing is recorded and the registration
    is the only outside call made. *)
Theorem test_registration_fails
    (w : World) (GCE_EMAIL GCE_KEYPATH GCE_STORAGE_CONTAINER : string)
    (image : StorageObject) (st : State) (e : exn) :
  ex_create_image w (gce_image_name_of (name image))
                  (image_url_of GCE_STORAGE_CONTAINER image) = Raise e ->
  exists st',
    test w GCE_EMAIL GCE_KEYPATH GCE_STORAGE_CONTAINER image st
    = (Raise e, st')
    /\ gce_images st' = gce_images st
    /\ nodes st' = nodes st
    /\ calls st'
       = (calls st
          ++ [ex_create_image_call (gce_image_name_of (name image))
                (image_url_of GCE_STORAGE_CONTAINER image) true])%list.
Proof.
  intros Hraise. eexists. split.
  - unfold test. unfold bind at 1. unfold log at 1.
    unfold bind at 1. unfold log at 1.
    unfold bind at 1. unfold call at 1.
    fold (image_url_of GCE_STORAGE_CONTAINER image). rewrite Hraise.
    reflexivity.
  - cbn. auto.
Qed.

Lemma test_registration_fails_witness :
  exists st',
    test no_registration "fedimg@example.org" "/etc/key" "fedimg-bucket"
         sample_image init
    = (Raise (OtherError "GoogleBaseError"), st')
    /\ gce_images st' = []
    /\ nodes st' = []
    /\ calls st'
       = [ex_create_image_call "fake-img-1-2-3"
            (image_url_of "fedimg-bucket" sample_image) true].
Proof.
  apply (test_registration_fails
           no_registration "fedimg@example.org" "/etc/key" "fedimg-bucket"
           sample_image init (OtherError "GoogleBaseError")).
  reflexivity.
Defined.

(** X11.  When the registration succeeds and the provider refuses the
    launch with an exception, [test] raises that exception with the image
    recorded and no node recorded: the image is there for [cleanup]. *)
Theorem test_launch_fails
    (w : World) (GCE_EMAIL GCE_KEYPATH GCE_STORAGE_CONTAINER : string)
    (image : StorageObject) (st : State)
    (gce_image : GceImage) (location : Location) (others : list Location)
    (sizes : list Size) (size : Size) (rest : list Size) (e : exn) :
  registers w GCE_STORAGE_CONTAINER image gce_image ->
  list_locations w = Ok (location :: others) ->
  list_sizes w location = Ok sizes ->
  sort_by_price sizes = size :: rest ->
  create_node w (gce_name gce_image) size gce_image location = Raise e ->
  exists st',
    test w GCE_EMAIL GCE_KEYPATH GCE_STORAGE_CONTAINER image st
    = (Raise e, st')
    /\ gce_images st' = (gce_images st ++ [gce_image])%list
    /\ nodes st' = nodes st
    /\ calls st'
       = (calls st ++ calls_to_launch GCE_STORAGE_CONTAINER image gce_image
                        location size)%list.
Proof.
  intros Hreg Hloc Hsizes Hsort Hraise.
  destruct (test_registered w GCE_EMAIL GCE_KEYPATH GCE_STORAGE_CONTAINER
              image gce_image st Hreg) as (st1 & -> & Hi1 & Hn1 & Hc1).
  eexists. split.
  - unfold after_registration.
    unfold bind at 1. unfold call at 1. rewrite Hloc.
    unfold bind at 1. unfold index0 at 1, ret at 1.
    unfold bind at 1. unfold call at 1. rewrite Hsizes.
    unfold bind at 1. rewrite Hsort. unfold index0 at 1, ret at 1.
    unfold bind at 1. unfold log at 1.
    unfold bind at 1. unfold call at 1. rewrite Hraise.
    reflexivity.
  - cbn. rewrite Hi1, Hn1, Hc1, <- !app_assoc. auto.
Qed.

Lemma test_launch_fails_witness :
  exists st',
    test no_launch "fedimg@example.org" "/etc/key" "fedimg-bucket"
         sample_image init
    = (Raise (OtherError "QuotaExceededError"), st')
    /\ gce_images st' = [sample_gce_image]
    /\ nodes st' = []
    /\ calls st'
       = calls_to_launch "fedimg-bucket" sample_image sample_gce_image
                         sample_location sample_size.
Proof.
  apply (test_launch_fails
           no_launch "fedimg@example.org" "/etc/key" "fedimg-bucket"
           sample_image init sample_gce_image sample_location []
           sample_sizes sample_size
           (List.tl (sort_by_price sample_sizes))
           (OtherError "QuotaExceededError"));
    reflexivity.
Defined.

(** X12.  When the node is launched and waiting for it to run fails (the
    time-out of ten minutes, for instance), [test] raises that exception
    with the image and the node recorded, and no SSH attempt is made. *)
Theorem test_wait_fails
    (w : World) (GCE_EMAIL GCE_KEYPATH GCE_STORAGE_CONTAINER : string)
    (image : StorageObject) (st : State)
    (gce_image : GceImage) (location : Location) (sizes : list Size)
    (size : Size) (node : Node) (e : exn) :
  launches w GCE_STORAGE_CONTAINER image gce_image location sizes size node ->
  wait_until_running w [node] = Raise e ->
  exists st',
    test w GCE_EMAIL GCE_KEYPATH GCE_STORAGE_CONTAINER image st
    = (Raise e, st')
    /\ gce_images st' = (gce_images st ++ [gce_image])%list
    /\ nodes st' = (nodes st ++ [node])%list
    /\ calls st'
       = (calls st ++ calls_to_probe GCE_STORAGE_CONTAINER image gce_image
                        location size node)%list.
Proof.
  intros Hlaunch Hraise.
  destruct (test_launched w GCE_EMAIL GCE_KEYPATH GCE_STORAGE_CONTAINER
              image gce_image location sizes size node st Hlaunch)
    as (st2 & -> & Hi2 & Hn2 & Hc2).
  eexists. split.
  - unfold after_launch. unfold bind at 1. unfold log at 1.
    unfold bind at 1. unfold call at 1. rewrite Hraise. reflexivity.
  - cbn. rewrite Hi2, Hn2, Hc2. unfold calls_to_probe.
    rewrite <- !app_assoc. auto.
Qed.

Lemma test_wait_fails_witness :
  exists st',
    test never_running "fedimg@example.org" "/etc/key" "fedimg-bucket"
         sample_image init
    = (Raise (OtherError "LibcloudError"), st')
    /\ gce_images st' = [sample_gce_image]
    /\ nodes st' = [sample_node]
    /\ calls st'
       = calls_to_probe "fedimg-bucket" sample_image sample_gce_image
                        sample_location sample_size sample_node.
Proof.
  apply (test_wait_fails
           never_running "fedimg@example.org" "/etc/key" "fedimg-bucket"
           sample_image init sample_gce_image sample_location sample_sizes
           sample_size sample_node (OtherError "LibcloudError")).
  - repeat split; try reflexivity; eexists; reflexivity.
  - reflexivity.
Defined.

(** X13.  An exception of the SSH client that the probe does not retry
    leaves [test] as it is, not as an [SSHConnectionError]: when a run
    reaches the probe, the attempts 1 to [k] fail with retried classes,
    [k] is below 60 and attempt [k + 1] raises [e] of another class,
    [test] raises [e] and no attempt follows. *)
Theorem test_probe_other_exception
    (w : World) (GCE_EMAIL GCE_KEYPATH GCE_STORAGE_CONTAINER : string)
    (image : StorageObject) (st : State)
    (gce_image : GceImage) (location : Location) (sizes : list Size)
    (size : Size) (node : Node) (ip : string) (k : nat) (e : exn) :
  reaches_probe w GCE_STORAGE_CONTAINER image gce_image location sizes size
                node ip ->
  (k < 60)%nat ->
  (forall j, 1 <= j <= Z.of_nat k ->
             attempt_fails w ip (split_0 "@" GCE_EMAIL) GCE_KEYPATH j = true) ->
  ssh_connect w (Z.of_nat k + 1) ip (split_0 "@" GCE_EMAIL) GCE_KEYPATH
  = Raise e ->
  retryable e = false ->
  exists st',
    test w GCE_EMAIL GCE_KEYPATH GCE_STORAGE_CONTAINER image st
    = (Raise e, st')
    /\ calls st'
       = (calls st
          ++ calls_to_probe GCE_STORAGE_CONTAINER image gce_image location
                            size node
          ++ retried_attempts k ip (split_0 "@" GCE_EMAIL) GCE_KEYPATH 60
          ++ final_attempt ip (split_0 "@" GCE_EMAIL) GCE_KEYPATH)%list.
Proof.
  intros Hreach Hk Hfail Hraise Hother.
  destruct (test_probes w GCE_EMAIL GCE_KEYPATH GCE_STORAGE_CONTAINER image
              gce_image location sizes size node ip st Hreach)
    as (st3 & -> & Hc3).
  destruct (ssh_connection_works_other w (split_0 "@" GCE_EMAIL) ip
              GCE_KEYPATH 60 60 k st3 e) as (st' & Hprobe & Hc);
    [unfold attempt_budget; lia | exact Hfail | exact Hraise | exact Hother
    | reflexivity |].
  exists st'. split.
  - unfold bind. rewrite Hprobe. reflexivity.
  - rewrite Hc, Hc3, <- !app_assoc. reflexivity.
Qed.

Lemma test_probe_other_exception_witness :
  exists st',
    test broken_client "fedimg@example.org" "/etc/key" "fedimg-bucket"
         sample_image init
    = (Raise (OtherError "IOError"), st')
    /\ calls st'
       = (calls_to_probe "fedimg-bucket" sample_image sample_gce_image
                         sample_location sample_size sample_node
          ++ retried_attempts 2 "203.0.113.7" "fedimg" "/etc/key" 60
          ++ final_attempt "203.0.113.7" "fedimg" "/etc/key")%list.
Proof.
  apply (test_probe_other_exception
           broken_client "fedimg@example.org" "/etc/key" "fedimg-bucket"
           sample_image init sample_gce_image sample_location sample_sizes
           sample_size sample_node "203.0.113.7" 2%nat
           (OtherError "IOError")).
  - repeat split; try reflexivity; eexists; reflexivity.
  - lia.
  - intros j Hj. assert (j = 1 \/ j = 2) as [-> | ->] by lia; reflexivity.
  - reflexivity.
  - reflexivity.
Defined.

(** ** upload: the container and the object *)

(** X14.  When the container exists and the fetch succeeds, [upload] does
    not create a container: it looks the container up, opens the URL as a
    stream and uploads it in chunks of 4 MB under the last segment of the
    URL as the object name, and returns what the storage driver returns. *)
Theorem upload_reuses_container
    (w : World) (GCE_STORAGE_CONTAINER dir file : string)
    (container : Container) (resp : Response) (st : State) :
  ~ occurs "/" file ->
  get_container w GCE_STORAGE_CONTAINER = Ok container ->
  requests_get w (dir ++ "/" ++ file) = Ok resp ->
  ok resp = true ->
  exists st',
    upload w GCE_STORAGE_CONTAINER (dir ++ "/" ++ file) st
    = (upload_object_via_stream w container file, st')
    /\ calls st'
       = (calls st
          ++ [get_container_call GCE_STORAGE_CONTAINER;
              requests_get_call (dir ++ "/" ++ file) true;
              upload_object_via_stream_call (4 * 1024 * 1024) container
                                            file])%list.
Proof.
  intros Hfile Hthere Hget Hok. eexists. split.
  - unfold upload. rewrite (basename_dir dir file Hfile).
    unfold bind at 1. unfold log at 1.
    unfold bind at 1. unfold get_or_create_container, call at 1.
    rewrite Hthere. unfold bind at 1. unfold call at 1. rewrite Hget, Hok.
    reflexivity.
  - cbn. rewrite <- !app_assoc. reflexivity.
Qed.

Lemma upload_reuses_container_witness :
  exists st',
    upload calm "fedimg-bucket"
           ("http://fake.fedimg.com" ++ "/" ++ "fake-img-1.2-3.tar.gz") init
    = (Ok {| name := "fake-img-1.2-3.tar.gz" |}, st')
    /\ calls st'
       = [get_container_call "fedimg-bucket";
          requests_get_call "http://fake.fedimg.com/fake-img-1.2-3.tar.gz"
                            true;
          upload_object_via_stream_call
            (4 * 1024 * 1024) {| container_name := "fedimg-bucket" |}
            "fake-img-1.2-3.tar.gz"].
Proof.
  apply (upload_reuses_container
           calm "fedimg-bucket" "http://fake.fedimg.com"
           "fake-img-1.2-3.tar.gz" {| container_name := "fedimg-bucket" |}
           {| ok := true; status_code := 200 |} init).
  - apply find_no_hit. reflexivity.
  - reflexivity.
  - reflexivity.
  - reflexivity.
Defined.

(** X15.  When the container does not exist, [upload] creates it exactly
    once, after the look-up and before the fetch and the upload, and
    uploads into the container just created. *)
Theorem upload_creates_container
    (w : World) (GCE_STORAGE_CONTAINER dir file : string)
    (container : Container) (resp : Response) (st : State) :
  ~ occurs "/" file ->
  get_container w GCE_STORAGE_CONTAINER = Raise ContainerDoesNotExistError ->
  create_container w GCE_STORAGE_CONTAINER = Ok container ->
  requests_get w (dir ++ "/" ++ file) = Ok resp ->
  ok resp = true ->
  exists st',
    upload w GCE_STORAGE_CONTAINER (dir ++ "/" ++ file) st
    = (upload_object_via_stream w container file, st')
    /\ calls st'
       = (calls st
          ++ [get_container_call GCE_STORAGE_CONTAINER;
              create_container_call GCE_STORAGE_CONTAINER;
              requests_get_call (dir ++ "/" ++ file) true;
              upload_object_via_stream_call (4 * 1024 * 1024) container
                                            file])%list.
Proof.
  intros Hfile Hmissing Hcreate Hget Hok. eexists. split.
  - unfold upload. rewrite (basename_dir dir file Hfile).
    unfold bind at 1. unfold log at 1.
    unfold bind at 1. unfold get_or_create_container, call at 1.
    rewrite Hmissing. unfold bind at 1. unfold log at 1.
    unfold call at 1. rewrite Hcreate.
    unfold bind at 1. unfold call at 1. rewrite Hget, Hok.
    reflexivity.
  - cbn. rewrite <- !app_assoc. reflexivity.
Qed.

Lemma upload_creates_container_witness :
  exists st',
    upload no_container "fedimg-bucket"
           ("http://fake.fedimg.com" ++ "/" ++ "fake-img-1.2-3.tar.gz") init
    = (Ok {| name := "fake-img-1.2-3.tar.gz" |}, st')
    /\ calls st'
       = [get_container_call "fedimg-bucket";
          create_container_call "fedimg-bucket";
          requests_get_call "http://fake.fedimg.com/fake-img-1.2-3.tar.gz"
                            true;
          upload_object_via_stream_call
            (4 * 1024 * 1024) {| container_name := "fedimg-bucket" |}
            "fake-img-1.2-3.tar.gz"].
Proof.
  apply (upload_creates_container
           no_container "fedimg-bucket" "http://fake.fedimg.com"
           "fake-img-1.2-3.tar.gz" {| container_name := "fedimg-bucket" |}
           {| ok := true; status_code := 200 |} init).
  - apply find_no_hit. reflexivity.
  - reflexivity.
  - reflexivity.
  - reflexivity.
  - reflexivity.
Defined.

(** X16.  A container that cannot be had ends [upload] before anything is
    fetched: an exception of the look-up other than
    [ContainerDoesNotExistError], and an exception of the creation, leave
    [upload] as they are, the look-up (and the creation) being the only
    outside calls made. *)
Theorem upload_container_failure
    (w : World) (GCE_STORAGE_CONTAINER image_url : string) (st : State)
    (e : exn) :
  (get_container w GCE_STORAGE_CONTAINER = Raise e ->
   e <> ContainerDoesNotExistError ->
   exists st',
     upload w GCE_STORAGE_CONTAINER image_url st = (Raise e, st')
     /\ calls st'
        = (calls st ++ [get_container_call GCE_STORAGE_CONTAINER])%list)
  /\ (get_container w GCE_STORAGE_CONTAINER
      = Raise ContainerDoesNotExistError ->
      create_container w GCE_STORAGE_CONTAINER = Raise e ->
      exists st',
        upload w GCE_STORAGE_CONTAINER image_url st = (Raise e, st')
        /\ calls st'
           = (calls st
              ++ [get_container_call GCE_STORAGE_CONTAINER;
                  create_container_call GCE_STORAGE_CONTAINER])%list).
Proof.
  split.
  - intros Hraise Hother.
    exists (issue (get_container_call GCE_STORAGE_CONTAINER)
              (record INFO ("Uploading " ++ image_url ++ " to container "
                            ++ GCE_STORAGE_CONTAINER) st)).
    split; [| reflexivity].
    unfold upload. unfold bind at 1. unfold log at 1.
    unfold bind at 1. unfold get_or_create_container, call at 1.
    rewrite Hraise. destruct e; try reflexivity. congruence.
  - intros Hmissing Hraise. eexists. split.
    + unfold upload. unfold bind at 1. unfold log at 1.
      unfold bind at 1. unfold get_or_create_container, call at 1.
      rewrite Hmissing. unfold bind at 1. unfold log at 1.
      unfold call at 1. rewrite Hraise. reflexivity.
    + cbn. rewrite <- !app_assoc. reflexivity.
Qed.

Lemma upload_container_failure_witness :
  (exists st',
      upload storage_down "fedimg-bucket"
             "http://fake.fedimg.com/fake-img-1.2-3.tar.gz" init
      = (Raise (OtherError "LibcloudError"), st')
      /\ calls st' = [get_container_call "fedimg-bucket"])
  /\ (exists st',
        upload no_container_no_create "fedimg-bucket"
               "http://fake.fedimg.com/fake-img-1.2-3.tar.gz" init
        = (Raise (OtherError "LibcloudError"), st')
        /\ calls st' = [get_container_call "fedimg-bucket";
                        create_container_call "fedimg-bucket"]).
Proof.
  split.
  - apply (proj1 (upload_container_failure
                    storage_down "fedimg-bucket"
                    "http://fake.fedimg.com/fake-img-1.2-3.tar.gz" init
                    (OtherError "LibcloudError")));
      [reflexivity | discriminate].
  - apply (proj2 (upload_container_failure
                    no_container_no_create "fedimg-bucket"
                    "http://fake.fedimg.com/fake-img-1.2-3.tar.gz" init
                    (OtherError "LibcloudError")));
      reflexivity.
Defined.

(** ** cleanup: what it asks for and what it lets through *)

Section Reaping.

Variable w : World.

Lemma try_delete_cases (c : Call) (answer : list Call -> result bool)
    (failed gone : string) (st : State) :
  exists r st',
    try_delete (call_after c answer) failed gone st = (r, st')
    /\ calls st' = (calls st ++ [c])%list
    /\ gce_images st' = gce_images st
    /\ (r = Ok tt \/ exists e, r = Raise e /\ e <> ResourceNotFoundError).
Proof.
  unfold try_delete, call_after.
  destruct (answer (calls st)) as [[|] | []];
    do 2 eexists; (split; [reflexivity |]); (split; [reflexivity |]);
    (split; [reflexivity |]);
    try (left; reflexivity);
    right; eexists; (split; [reflexivity | discriminate]).
Qed.

Lemma for_each_delete_prefix {A} (mk_call : A -> Call)
    (answer : A -> list Call -> result bool)
    (title : A -> string) (failed gone : string) :
  forall xs st,
  exists r st' n,
    for_each xs (fun x =>
      log INFO (title x) ;;
      try_delete (call_after (mk_call x) (answer x)) failed gone) st
    = (r, st')
    /\ (n <= List.length xs)%nat
    /\ calls st' = (calls st ++ map mk_call (firstn n xs))%list
    /\ gce_images st' = gce_images st
    /\ (r = Ok tt /\ n = List.length xs
        \/ exists e, r = Raise e /\ e <> ResourceNotFoundError).
Proof.
  induction xs as [| x xs IH]; intros st.
  - exists (Ok tt), st, 0%nat. cbn. rewrite app_nil_r.
    split; [reflexivity |]. split; [lia |]. split; [reflexivity |].
    split; [reflexivity |]. left. auto.
  - cbn [for_each]. unfold bind at 1. unfold bind at 1. unfold log at 1.
    destruct (try_delete_cases (mk_call x) (answer x) failed gone
                (record INFO (title x) st))
      as (r1 & st1 & -> & Hc1 & Hi1 & [-> | (e & -> & He)]).
    + destruct (IH st1) as (r & st' & n & -> & Hn & Hc & Hi & Hr).
      exists r, st', (S n). split; [reflexivity |].
      split; [cbn; lia |]. split; [| split].
      * rewrite Hc, Hc1. cbn. rewrite <- app_assoc. reflexivity.
      * rewrite Hi, Hi1. reflexivity.
      * destruct Hr as [[-> ->] | Hr]; [left; auto | right; exact Hr].
    + exists (Raise e), st1, 1%nat. split; [reflexivity |].
      split; [cbn; lia |]. split; [rewrite Hc1; reflexivity |].
      split; [rewrite Hi1; reflexivity |].
      right. exists e. auto.
Qed.

Lemma cleanup_prefix (st : State) :
  exists r st' n,
    cleanup w st = (r, st')
    /\ calls st' = (calls st ++ firstn n (reaping_calls st))%list
    /\ forall e, r = Raise e -> e <> ResourceNotFoundError.
Proof.
  unfold cleanup, reaping_calls, destroy_calls, delete_calls.
  unfold bind at 1. unfold gets at 1. unfold bind at 1.
  destruct (for_each_delete_prefix
              (fun node => destroy_node_call node true)
              (fun node h => destroy_node w h node true)
              (fun node => "Deleting test instance: " ++ node_name node)
              "Failed to delete test instance" "No test instance to delete"
              (nodes st) st)
    as (r1 & st1 & n1 & -> & Hn1 & Hc1 & Hi1 & [[-> ->] | (e & -> & He)]).
  - unfold bind at 1. unfold gets at 1.
    destruct (for_each_delete_prefix
                delete_call
                (fun gce_image h => delete w h gce_image)
                (fun gce_image => "Deleting test image: "
                                  ++ gce_name gce_image)
                "Failed to delete test image" "No test image to delete"
                (gce_images st1) st1)
      as (r2 & st2 & n2 & -> & Hn2 & Hc2 & _ & Hr2).
    exists r2, st2, (List.length (nodes st) + n2)%nat.
    split; [reflexivity |]. split.
    + rewrite Hc2, Hc1, Hi1, firstn_all.
      replace (List.length (nodes st))
        with (List.length (map (fun node => destroy_node_call node true)
                               (nodes st)))
        by apply length_map.
      rewrite firstn_app_2, firstn_map, <- app_assoc. reflexivity.
    + intros e ->. destruct Hr2 as [[Hr2 _] | (e' & Hr2 & He')];
        [discriminate | congruence].
  - exists (Raise e), st1, n1. split; [reflexivity |]. split.
    + rewrite Hc1, firstn_app, firstn_map, length_map.
      replace (n1 - List.length (nodes st))%nat with 0%nat by lia.
      cbn. rewrite app_nil_r. reflexivity.
    + intros e' He'. congruence.
Qed.

End Reaping.

(** X17.  Whatever the provider answers, [cleanup] never raises
    [ResourceNotFoundError], and it asks for nothing but what is recorded:
    its outside calls are an initial part of the destroy requests for the
    recorded nodes followed by the delete requests for the recorded
    images, each in the order of its list. *)
Theorem cleanup_asks_only_for_recorded (w : World) (st : State) :
  fst (cleanup w st) <> Raise ResourceNotFoundError
  /\ exists n,
       calls (snd (cleanup w st))
       = (calls st ++ firstn n (reaping_calls st))%list.
Proof.
  destruct (cleanup_prefix w st) as (r & st' & n & -> & Hc & Hr).
  split.
  - intros Heq. exact (Hr _ Heq eq_refl).
  - exists n. exact Hc.
Qed.

(** ** The service as a context manager *)

(** X18.  In a world whose destroy and delete requests all return or raise
    [ResourceNotFoundError], a [with] block over the service ends as its
    body ends (with the value or the exception of the body), after a
    destroy request for every node and a delete request for every image
    that the body left recorded. *)
Theorem with_service_reaps (A : Type) (w : World) (body : M A) (st : State) :
  benign_world w ->
  fst (with_service w body st) = fst (body st)
  /\ calls (snd (with_service w body st))
     = (calls (snd (body st)) ++ reaping_calls (snd (body st)))%list.
Proof.
  intros [Hdestroy Hdelete]. unfold with_service, __exit__.
  destruct (body st) as [r st1].
  destruct (cleanup_benign w st1 Hdestroy Hdelete) as (st2 & -> & Hc).
  split; [reflexivity | exact Hc].
Qed.

Lemma with_service_reaps_witness :
  fst (with_service half_gone
         (fun st => (Raise (OtherError "KeyboardInterrupt"), st))
         two_of_each)
  = Raise (OtherError "KeyboardInterrupt") :> result unit
  /\ calls (snd (with_service half_gone
                   (fun st => (@Raise unit (OtherError "KeyboardInterrupt"),
                               st))
                   two_of_each))
     = [destroy_node_call node_1 true; destroy_node_call node_2 true;
        delete_call gce_image_1; delete_call gce_image_2].
Proof.
  apply (with_service_reaps unit half_gone
           (fun st => (Raise (OtherError "KeyboardInterrupt"), st))
           two_of_each).
  split.
  - intros h node. cbn.
    destruct (String.eqb (node_name node) "node-1"); reflexivity.
  - intros h gce_image. reflexivity.
Defined.

(** X19.  Qualification inside a [with] block releases what it acquired:
    in such a world, for a service whose lists are empty and a run of
    [test] whose registration and launch succeed, the block ends as
    [test] ends, and the last two outside calls are the destroy request
    (with the boot disk) for the node launched and the delete request for
    the image registered, whether [test] passed or failed. *)
Theorem with_service_test_releases
    (w : World) (GCE_EMAIL GCE_KEYPATH GCE_STORAGE_CONTAINER : string)
    (image : StorageObject) (st : State)
    (gce_image : GceImage) (location : Location) (sizes : list Size)
    (size : Size) (node : Node) :
  benign_world w ->
  gce_images st = [] ->
  nodes st = [] ->
  launches w GCE_STORAGE_CONTAINER image gce_image location sizes size node ->
  fst (with_service w
         (test w GCE_EMAIL GCE_KEYPATH GCE_STORAGE_CONTAINER image) st)
  = fst (test w GCE_EMAIL GCE_KEYPATH GCE_STORAGE_CONTAINER image st)
  /\ calls (snd (with_service w
                   (test w GCE_EMAIL GCE_KEYPATH GCE_STORAGE_CONTAINER image)
                   st))
     = (calls (snd (test w GCE_EMAIL GCE_KEYPATH GCE_STORAGE_CONTAINER
                         image st))
        ++ [destroy_node_call node true; delete_call gce_image])%list.
Proof.
  intros [Hdestroy Hdelete] Hno_images Hno_nodes Hlaunch.
  unfold with_service, __exit__.
  destruct (test_launched w GCE_EMAIL GCE_KEYPATH GCE_STORAGE_CONTAINER
              image gce_image location sizes size node st Hlaunch)
    as (st2 & Hrun & Hi2 & Hn2 & _).
  destruct (tail_quiet w GCE_EMAIL GCE_KEYPATH image node st2)
    as [[Hi _] Hn].
  rewrite Hrun.
  destruct (after_launch w GCE_EMAIL GCE_KEYPATH image node st2)
    as [r st3].
  cbn [snd] in Hi, Hn.
  destruct (cleanup_benign w st3 Hdestroy Hdelete) as (st4 & -> & Hc).
  split; [reflexivity |].
  cbn [snd]. rewrite Hc, Hn, Hi, Hn2, Hi2, Hno_images, Hno_nodes.
  reflexivity.
Qed.

Lemma with_service_test_releases_witness :
  fst (with_service unreachable
         (test unreachable "fedimg@example.org" "/etc/key" "fedimg-bucket"
               sample_image) init)
  = fst (test unreachable "fedimg@example.org" "/etc/key" "fedimg-bucket"
              sample_image init)
  /\ calls (snd (with_service unreachable
                   (test unreachable "fedimg@example.org" "/etc/key"
                         "fedimg-bucket" sample_image) init))
     = (calls (snd (test unreachable "fedimg@example.org" "/etc/key"
                         "fedimg-bucket" sample_image init))
        ++ [destroy_node_call sample_node true;
            delete_call sample_gce_image])%list.
Proof.
  apply (with_service_test_releases
           unreachable "fedimg@example.org" "/etc/key" "fedimg-bucket"
           sample_image init sample_gce_image sample_location sample_sizes
           sample_size sample_node).
  - split; intros; reflexivity.
  - reflexivity.
  - reflexivity.
  - repeat split; try reflexivity; eexists; reflexivity.
Defined.
